(** * Content-acquisition pipeline of the feed routes

    A shallow embedding of the credential resolution, tiered fetching,
    extraction and batching code of the routes

      - [lib/routes/investing/latest-news.ts]
      - [lib/routes/investing/most-popular-news.ts]
      - [lib/routes/xiaohongshu/check-cookie.ts]
      - [lib/routes/douyin/user.ts], [lib/routes/douyin/user-web.ts]
      - [lib/routes/twitter/user.ts]

    JavaScript strings are modelled as [string] (sequences of 8-bit code
    units); a value that may be [undefined] is an [option]. *)

From stdpp Require Import base option list strings pretty gmap fin_maps.
From Stdlib Require Import Ascii ZArith Lia.

Local Open Scope string_scope.

(** ** JavaScript primitives used by the handlers *)
Module JS.

(** Truthiness of a string: every string but the empty one. *)
Definition nonempty (s : string) : bool :=
  match s with
  | EmptyString => false
  | String _ _ => true
  end.

(** Truthiness of a [string | undefined]. *)
Definition truthy (o : option string) : bool :=
  match o with
  | Some s => nonempty s
  | None => false
  end.

(** [a || b] on [string | undefined]. *)
Definition or (a b : option string) : option string :=
  if truthy a then a else b.

(** [a ?? b]. *)
Definition nullish {A} (a b : option A) : option A :=
  match a with
  | Some _ => a
  | None => b
  end.

(** [s.slice(0, n)] for a non-negative [n]. *)
Fixpoint slice0 (n : nat) (s : string) : string :=
  match n, s with
  | S n', String c s' => String c (slice0 n' s')
  | _, _ => EmptyString
  end.

(** [s.startsWith(p)]. *)
Fixpoint startsWith (p s : string) : bool :=
  match p, s with
  | EmptyString, _ => true
  | String a p', String b s' => if decide (a = b) then startsWith p' s' else false
  | String _ _, EmptyString => false
  end.

(** [s.includes(p)]. *)
Fixpoint includes (p s : string) : bool :=
  startsWith p s ||
  match s with
  | EmptyString => false
  | String _ s' => includes p s'
  end.

Definition lowerAscii (c : ascii) : ascii :=
  let n := nat_of_ascii c in
  if (65 <=? n)%nat && (n <=? 90)%nat then ascii_of_nat (n + 32) else c.

(** [s.toLowerCase()] on the ASCII range. *)
Fixpoint toLowerCase (s : string) : string :=
  match s with
  | EmptyString => EmptyString
  | String c s' => String (lowerAscii c) (toLowerCase s')
  end.

(** [parts.join(sep)]. *)
Fixpoint join (sep : string) (parts : list string) : string :=
  match parts with
  | [] => EmptyString
  | [p] => p
  | p :: rest => p +:+ sep +:+ join sep rest
  end.

(** The white space that [parseInt] (through [StrWhiteSpaceChar]) skips,
    on the 8-bit range: TAB, LF, VT, FF, CR, SP, NBSP. *)
Definition isWhite (c : ascii) : bool :=
  let n := nat_of_ascii c in
  ((9 <=? n)%nat && (n <=? 13)%nat) || (n =? 32)%nat || (n =? 160)%nat.

Fixpoint trimStart (s : string) : string :=
  match s with
  | String c s' => if isWhite c then trimStart s' else s
  | EmptyString => EmptyString
  end.

Definition digit (c : ascii) : option Z :=
  let n := nat_of_ascii c in
  if (48 <=? n)%nat && (n <=? 57)%nat then Some (Z.of_nat n - 48)%Z else None.

(** The value of the longest prefix of decimal digits, [None] when there
    is no digit at all. *)
Fixpoint digits (acc : option Z) (s : string) : option Z :=
  match s with
  | String c s' =>
      match digit c with
      | Some d => digits (Some (10 * default 0%Z acc + d)%Z) s'
      | None => acc
      end
  | EmptyString => acc
  end.

(** [Number.parseInt(s, 10)]; [None] is [NaN]. *)
Definition parseInt (s : string) : option Z :=
  match trimStart s with
  | String "-" s' => Z.opp <$> digits None s'
  | String "+" s' => digits None s'
  | s' => digits None s'
  end.

(** [xs.slice(0, end)]: [ToIntegerOrInfinity] sends [NaN] to [0], a
    negative [end] counts from the back of the array. *)
Definition sliceTo {A} (e : option Z) (xs : list A) : list A :=
  let len := Z.of_nat (length xs) in
  let rel := default 0%Z e in
  let final := if (rel <? 0)%Z then Z.max (len + rel) 0 else Z.min rel len in
  take (Z.to_nat final) xs.

End JS.

(** ** Credential resolution and its log record *)

(** What a handler writes to the log about the resolved credential. *)
Record credentialRecord := {
  rec_source : string;
  rec_length : nat;
  rec_prefix : string;
}.

(** [cookie ? cookie.slice(0, 32) : 'none'] *)
Definition cookiePrefix (cookie : option string) : string :=
  match cookie with
  | Some c => if JS.nonempty c then JS.slice0 32 c else "none"
  | None => "none"
  end.

(** [cookie?.length ?? 0] *)
Definition cookieLength (cookie : option string) : nat :=
  match cookie with
  | Some c => String.length c
  | None => 0
  end.

Definition credentialLine (route : string) (r : credentialRecord) : string :=
  route +:+ " cookie source=" +:+ rec_source r +:+ ", length=" +:+ pretty (rec_length r)
        +:+ ", prefix=" +:+ rec_prefix r.

(** The three places a credential can come from. *)
Record sources := {
  src_query : option string;
  src_header : option string;
  src_env : option string;
}.

(** investing/latest-news.ts and investing/most-popular-news.ts, [handler]. *)
Module InvestingCredential.

Definition push (o : option string) (parts : list string) : list string :=
  match o with
  | Some s => if JS.nonempty s then parts ++ [s] else parts
  | None => parts
  end.

Definition cookieParts (s : sources) : list string :=
  push (src_env s) (push (src_header s) (push (src_query s) [])).

Definition cookie (s : sources) : string := JS.join "; " (cookieParts s).

Definition cookieSource (s : sources) : string :=
  if JS.truthy (src_query s) then "query+env/header"
  else if JS.truthy (src_header s) then "header+env"
  else if JS.truthy (src_env s) then "env"
  else "none".

(** [(query('puppeteer') ?? process.env.Investing_UsePuppeteer ?? 'false')
     .toString().toLowerCase() === 'true'] *)
Definition usePuppeteer (q e : option string) : bool :=
  bool_decide (JS.toLowerCase (default "false" (JS.nullish q e)) = "true").

Definition record (s : sources) : credentialRecord :=
  {| rec_source := cookieSource s;
     rec_length := String.length (cookie s);
     rec_prefix := cookiePrefix (Some (cookie s)) |}.

Definition logLine (route : string) (s : sources) (puppeteer : bool) : string :=
  credentialLine route (record s) +:+ ", puppeteer=" +:+ (if puppeteer then "true" else "false").

End InvestingCredential.

(** xiaohongshu/check-cookie.ts, [handler]. *)
Module XiaohongshuCredential.

Record request := {
  header_underscore : option string;  (* ctx.req.header('XIAOHONGSHU_COOKIE') *)
  header_dash : option string;        (* ctx.req.header('XIAOHONGSHU-COOKIE') *)
  url_b64 : option string;            (* getCookieFromUrlBase64(ctx.req.url) *)
  query_b64 : option string;          (* ctx.req.query('vokecookie_b64') *)
}.

Definition headerCookie (r : request) : option string :=
  JS.or (header_underscore r) (header_dash r).

Definition cookieFromQuery (r : request) : option string :=
  JS.nullish (url_b64 r) (query_b64 r).

Definition toSources (r : request) (config : option string) : sources :=
  {| src_query := cookieFromQuery r; src_header := headerCookie r; src_env := config |}.

Definition cookie (s : sources) : option string :=
  JS.or (JS.or (src_query s) (src_header s)) (src_env s).

Definition cookieSource (s : sources) : string :=
  if JS.truthy (src_query s) then "query"
  else if JS.truthy (src_header s) then "header"
  else if JS.truthy (src_env s) then "config"
  else "none".

Definition record (s : sources) : credentialRecord :=
  {| rec_source := cookieSource s;
     rec_length := cookieLength (cookie s);
     rec_prefix := cookiePrefix (cookie s) |}.

Definition logLine (s : sources) : string :=
  credentialLine "xiaohongshu/check-cookie" (record s).

End XiaohongshuCredential.

(** douyin/user.ts and douyin/user-web.ts, [handler]: no query source. *)
Module DouyinCredential.

Definition cookie (headerCookie config : option string) : option string :=
  JS.or headerCookie config.

Definition cookieSource (headerCookie config : option string) : string :=
  if JS.truthy headerCookie then "header"
  else if JS.truthy config then "env"
  else "none".

Definition record (headerCookie config : option string) : credentialRecord :=
  {| rec_source := cookieSource headerCookie config;
     rec_length := cookieLength (cookie headerCookie config);
     rec_prefix := cookiePrefix (cookie headerCookie config) |}.

Definition logLine (headerCookie config : option string) : string :=
  "Douyin cookie source=" +:+ rec_source (record headerCookie config)
    +:+ ", length=" +:+ pretty (rec_length (record headerCookie config))
    +:+ ", prefix=" +:+ rec_prefix (record headerCookie config).

End DouyinCredential.

(** twitter/user.ts, [handler]: the values decoded from the query. *)
Module TwitterCredential.

Definition orNone (o : option string) : string := default "none" o.

(** The line written when any of the three decoded values is truthy. *)
Definition logLine (username password authToken : option string) : option string :=
  if JS.truthy username || JS.truthy password || JS.truthy authToken
  then Some ("twitter/user decoded query values: username=" +:+ orNone username
               +:+ ", password=" +:+ orNone password
               +:+ ", authToken=" +:+ orNone authToken)
  else None.

End TwitterCredential.

(** ** Effects: a log of external interactions, a keyed cache, exceptions *)

(** Every interaction with the outside is recorded, in order. *)
Inductive event :=
| Log (level msg : string)            (* logger.info / logger.warn / logger.http *)
| Got (url cookie : string)           (* plain HTTP request through got *)
| Launch (url : string)               (* a browser session is being requested *)
| Open (url : string)                 (* ... and was handed to the caller *)
| Close (url : string)                (* the session is destroyed / the browser closed *)
| Render (service url selector : string). (* request to the real-browser service *)

Global Instance event_eq_dec : EqDecision event.
Proof. solve_decision. Defined.

Inductive error :=
| InvalidParameterError (msg : string)
| Error (msg : string)
| Rejected (what : string).           (* an exception raised by a library call *)

Inductive result (A : Type) :=
| Ok (a : A)
| Throw (e : error).
Arguments Ok {A} a.
Arguments Throw {A} e.

Record world (V : Type) := World {
  trace : list event;
  store : gmap string V;
}.
Arguments World {V} trace store.
Arguments trace {V} w.
Arguments store {V} w.

(** An [async] computation over a cache of [V]s. *)
Definition M (V A : Type) : Type := world V → result A * world V.

Definition ret {V A} (a : A) : M V A := fun w => (Ok a, w).

Definition bind {V A B} (m : M V A) (k : A → M V B) : M V B :=
  fun w =>
    match m w with
    | (Ok a, w') => k a w'
    | (Throw e, w') => (Throw e, w')
    end.

Definition throw {V A} (e : error) : M V A := fun w => (Throw e, w).

Definition emit {V} (ev : event) : M V unit :=
  fun w => (Ok tt, World (trace w ++ [ev]) (store w)).

Notation "'let*' x ':=' m 'in' k" := (bind m (fun x => k))
  (at level 10, x pattern, m at level 100, k at level 200).
Notation "'run' m 'then' k" := (bind m (fun _ => k))
  (at level 10, m at level 100, k at level 200).

(** [try { m } catch (e) { h(e) }] *)
Definition tryCatch {V A} (m : M V A) (h : error → M V A) : M V A :=
  fun w =>
    match m w with
    | (Ok a, w') => (Ok a, w')
    | (Throw e, w') => h e w'
    end.

(** [try { m } finally { f }]: an exception of [f] replaces the outcome. *)
Definition tryFinally {V A} (m : M V A) (f : M V unit) : M V A :=
  fun w =>
    match m w with
    | (r, w') =>
        match f w' with
        | (Ok _, w'') => (r, w'')
        | (Throw e, w'') => (Throw e, w'')
        end
    end.

(** The idiom of both investing handlers,
    [let ctx; try { ctx = await acquire(); body } finally { await ctx?.destory?.() }]:
    the release runs exactly when [ctx] was assigned. *)
Definition scoped {V R A} (acquire : M V R) (body : R → M V A) (release : R → M V unit) : M V A :=
  fun w =>
    match acquire w with
    | (Ok ctx, w') => tryFinally (body ctx) (release ctx) w'
    | (Throw e, w') => (Throw e, w')
    end.

(** The same with a [catch] clause between body and [finally]; the handler
    also sees an exception of the acquisition, after which [ctx] is still
    undefined and nothing is released. *)
Definition scopedCatch {V R A} (acquire : M V R) (body : R → M V A)
    (h : error → M V A) (release : R → M V unit) : M V A :=
  fun w =>
    match acquire w with
    | (Ok ctx, w') => tryFinally (tryCatch (body ctx) h) (release ctx) w'
    | (Throw e, w') => h e w'
    end.

Definition log {V} (level msg : string) : M V unit := emit (Log level msg).

(** [`${error}`] *)
Definition errorText (e : error) : string :=
  match e with
  | InvalidParameterError m => "InvalidParameterError: " +:+ m
  | Error m => "Error: " +:+ m
  | Rejected m => m
  end.

(** Modelled from the spec: [cache.tryGet] of [@/utils/cache], which is not
    part of the sources at hand, as one caller at a time sees it: a stored
    entry is returned without running the producer; otherwise the producer
    runs, its value is stored under the key and returned, and its exception
    is passed on with nothing stored. An expired entry is an absent one. *)
Definition tryGet {V} (key : string) (producer : M V V) : M V V :=
  fun w =>
    match store w !! key with
    | Some v => (Ok v, w)
    | None =>
        match producer w with
        | (Ok v, w') => (Ok v, World (trace w') (<[key := v]> (store w')))
        | (Throw e, w') => (Throw e, w')
        end
    end.

(** [for (const x of xs) { out.push(await f(x)) }] *)
Fixpoint forPush {V A B} (f : A → M V B) (xs : list A) (out : list B) : M V (list B) :=
  match xs with
  | [] => ret out
  | x :: xs' => let* y := f x in forPush f xs' (out ++ [y])
  end.

(** Modelled from the spec: the entry of [key] is set to the value its
    producer returned ([cache.set] of [@/utils/cache]). *)
Definition cacheSet {V} (key : string) (v : V) : M V unit :=
  fun w => (Ok tt, World (trace w) (<[key := v]> (store w))).

(** A call of [cache.tryGet] that was made and is not yet awaited: its entry
    was there, or it awaits a producer that is suspended at its first
    [await]. Calls for one key made while its producer is in flight await
    one and the same promise. *)
Inductive pending (V : Type) :=
| Stored (v : V)
| Awaits (key : string) (rest : M V V).
Arguments Stored {V} v.
Arguments Awaits {V} key rest.

(** Modelled from the spec: the part of [cache.tryGet(key, producer)] that
    runs before the call returns its promise. [@/utils/cache] is not part of
    the sources at hand; the spec has a stored entry returned at once, a call
    for a key in flight wait for the producer that is running, and any other
    call invoke the producer, which runs up to its first [await] ([start]
    returns what is left of it). An exception thrown before that rejects the
    promise. *)
Definition tryGetStart {V} (key : string) (start : M V (M V V))
    (inFlight : gmap string (M V V)) : M V (pending V) :=
  fun w =>
    match store w !! key with
    | Some v => (Ok (Stored v), w)
    | None =>
        match inFlight !! key with
        | Some rest => (Ok (Awaits key rest), w)
        | None =>
            (let* rest := tryCatch start (fun err => ret (throw err)) in
             ret (Awaits key rest)) w
        end
    end.

Definition inFlightAfter {V} (h : pending V) (inFlight : gmap string (M V V)) :
    gmap string (M V V) :=
  match h with
  | Awaits key rest => <[key := rest]> inFlight
  | Stored _ => inFlight
  end.

(** [xs.map(f)] with [f = (x) => cache.tryGet(key(x), producer(x))]: the
    calls are made one after the other, in the order of [xs], and none is
    awaited. *)
Fixpoint dispatch {V A} (key : A → string) (start : A → M V (M V V)) (xs : list A)
    (inFlight : gmap string (M V V)) : M V (list (pending V)) :=
  match xs with
  | [] => ret []
  | x :: xs' =>
      let* h := tryGetStart (key x) (start x) inFlight in
      let* hs := dispatch key start xs' (inFlightAfter h inFlight) in
      ret (h :: hs)
  end.

(** The producer of [key] has returned [v]: every call that awaits it has
    its result. *)
Definition resolve {V} (key : string) (v : V) (hs : list (pending V)) : list (pending V) :=
  map (fun h => match h with
                | Awaits k _ => if decide (k = key) then Stored v else h
                | Stored _ => h
                end) hs.

(** The promises settle in the order [sched] names their positions: the
    rest of the producer runs to its end (a producer that the handlers run
    concurrently has one suspension, its request), its value is stored
    under the key and handed to the calls that wait for it. A rejection
    rejects the whole. *)
Fixpoint settle {V} (hs : list (pending V)) (sched : list nat) : M V (list (pending V)) :=
  match sched with
  | [] => ret hs
  | i :: sched' =>
      match hs !! i with
      | Some (Awaits key rest) =>
          let* v := rest in
          run cacheSet key v then
          settle (resolve key v hs) sched'
      | _ => settle hs sched'
      end
  end.

(** A promise that [sched] does not name settles after those it names, by
    position; the result array has the value of every promise at the
    position of its call. *)
Fixpoint finish {V} (hs : list (pending V)) (settled : gmap string V) : M V (list V) :=
  match hs with
  | [] => ret []
  | Stored v :: hs' => let* out := finish hs' settled in ret (v :: out)
  | Awaits key rest :: hs' =>
      match settled !! key with
      | Some v => let* out := finish hs' settled in ret (v :: out)
      | None =>
          let* v := rest in
          run cacheSet key v then
          let* out := finish hs' (<[key := v]> settled) in
          ret (v :: out)
      end
  end.

(** [Promise.all(xs.map((x) => cache.tryGet(key(x), producer(x))))] *)
Definition promiseAll {V A} (key : A → string) (start : A → M V (M V V)) (xs : list A)
    (sched : list nat) : M V (list V) :=
  let* hs := dispatch key start xs ∅ in
  let* hs := settle hs sched in
  finish hs ∅.

Fixpoint removeFirst (u : string) (live : list string) : list string :=
  match live with
  | [] => []
  | v :: live' => if decide (v = u) then live' else v :: removeFirst u live'
  end.

(** The browser sessions still open after a trace, given those open before. *)
Fixpoint liveSessions (tr : list event) (live : list string) : list string :=
  match tr with
  | [] => live
  | Open u :: tr' => liveSessions tr' (u :: live)
  | Close u :: tr' => liveSessions tr' (removeFirst u live)
  | _ :: tr' => liveSessions tr' live
  end.

(** ** The investing routes *)
Module Investing.

Definition rootUrl : string := "https://cn.investing.com".
Definition feedUrl : string := rootUrl +:+ "/rss/news.rss".
Definition newsUrl : string := rootUrl +:+ "/news/most-popular-news".

(** What the selectors of the handlers find in a loaded document, once its
    script, style, noscript and iframe elements are removed: the inner
    HTML of the elements matching [#articlePage], [.articlePage] and
    [article], in document order, and the [content] attribute of the first
    [meta[property="og:description"]]. *)
Record dom := {
  byId : list string;
  byClass : list string;
  byTag : list string;
  ogDescription : option string;
}.

(** A page handed out by [getPuppeteerPage]. *)
Record page := {
  selectorAppears : bool;           (* page.waitForSelector resolves in time *)
  pageContent : option string;      (* page.content(), None when it throws *)
}.

Record rssItem := {
  rss_title : option string;
  rss_link : option string;
  rss_author : option string;
  rss_creator : option string;
  rss_isoDate : option string;
  rss_pubDate : option string;
}.

Record feed := {
  feed_title : option string;
  feed_items : option (list rssItem);
}.

Record item := {
  title : option string;
  link : string;
  author : option string;
  pubDate : option string;
  description : option string;
}.

Definition setDescription (html : option string) (it : item) : item :=
  {| title := title it; link := link it; author := author it;
     pubDate := pubDate it; description := html |}.

Record data := {
  data_title : string;
  data_link : string;
  data_item : list item;
}.

(** The collaborators of the handlers; [None] is a thrown exception. *)
Record env := {
  got : string → string → option string;       (* url, cookie header ↦ body *)
  load : string → dom;                         (* cheerio *)
  getPuppeteerPage : string → option page;
  parseString : string → option feed;          (* rss-parser *)
  resolveUrl : string → option string;         (* new URL(link, rootUrl).href *)
  parseDate : option string → option string;
  parseList : string → option (list item);     (* the list page's selectors *)
  realBrowser : string → string → string → option (option (list string));
                                               (* service, url, selector ↦ json.data *)
}.

(** [/Just a moment\.\.\.|cf_chl_opt|challenge-platform/i.test(content)] *)
Definition isChallengePage (content : string) : bool :=
  let c := JS.toLowerCase content in
  JS.includes "just a moment..." c || JS.includes "cf_chl_opt" c
    || JS.includes "challenge-platform" c.

(** The container of the article: the first selector that matches. *)
Definition container (d : dom) : list string :=
  let content := match byId d with [] => byClass d | _ => byId d end in
  match content with [] => byTag d | _ => content end.

(** [article.html() || $('meta[property="og:description"]').attr('content')] *)
Definition extract (d : dom) : option string :=
  JS.or (head (container d)) (ogDescription d).

Section Handlers.
Context {V : Type} (e : env).
Variable cookie : string.
Variable usePuppeteer : bool.

Definition gotM (url : string) : M V string :=
  run emit (Got url cookie) then
  match got e url cookie with
  | Some body => ret body
  | None => throw (Rejected "got")
  end.

Definition getPuppeteerPageM (url : string) : M V page :=
  run emit (Launch url) then
  match getPuppeteerPage e url with
  | Some pg => run emit (Open url) then ret pg
  | None => throw (Rejected "getPuppeteerPage")
  end.

Definition waitForSelectorM (pg : page) : M V unit :=
  if selectorAppears pg then ret tt else throw (Rejected "TimeoutError").

Definition contentM (pg : page) : M V string :=
  match pageContent pg with
  | Some c => ret c
  | None => throw (Rejected "page.content")
  end.

(** [pageContext?.destory?.()] *)
Definition destory (url : string) (pg : page) : M V unit := emit (Close url).

(** latest-news.ts, [tryGot] of [fetchItem] *)
Definition tryGot (it : item) : M V (bool * item) :=
  if negb (JS.nonempty cookie) then ret (false, it)
  else
    tryCatch
      (let* response := gotM (link it) in
       let html := extract (load e response) in
       if JS.truthy html then ret (true, setDescription html it)
       else ret (false, it))
      (fun error =>
         run log "warn" ("investing/latest-news got fetch failed for " +:+ link it
                           +:+ ": " +:+ errorText error) then
         ret (false, it)).

(** latest-news.ts, the producer that [fetchItem] hands to the cache *)
Definition fetchItemProducer (it : item) : M V item :=
  let* (gotOk, it) := tryGot it in
  if gotOk || negb usePuppeteer then ret it
  else
    run log "info" ("investing/latest-news using puppeteer for " +:+ link it) then
    scopedCatch (getPuppeteerPageM (link it))
      (fun pg =>
         run tryCatch (waitForSelectorM pg) (fun _ => ret tt) then
         let* content := contentM pg in
         let html := extract (load e content) in
         if JS.truthy html then ret (setDescription html it) else ret it)
      (fun error =>
         run log "warn" ("investing/latest-news puppeteer fetch failed for "
                           +:+ link it +:+ ": " +:+ errorText error) then
         ret it)
      (destory (link it)).

(** [tryGot] up to its first suspension: without a cookie it has returned,
    with one the request is out and what is left waits for the response. *)
Definition tryGotStart (it : item) : M V (M V (bool * item)) :=
  if negb (JS.nonempty cookie) then ret (ret (false, it))
  else
    run emit (Got (link it) cookie) then
    ret (tryCatch
           (let* response := match got e (link it) cookie with
                             | Some body => ret body
                             | None => throw (Rejected "got")
                             end in
            let html := extract (load e response) in
            if JS.truthy html then ret (true, setDescription html it)
            else ret (false, it))
           (fun error =>
              run log "warn" ("investing/latest-news got fetch failed for " +:+ link it
                                +:+ ": " +:+ errorText error) then
              ret (false, it))).

(** The producer from [await tryGot()] on. *)
Definition afterTryGot (gotOk : bool) (it : item) : M V item :=
  if gotOk || negb usePuppeteer then ret it
  else
    run log "info" ("investing/latest-news using puppeteer for " +:+ link it) then
    scopedCatch (getPuppeteerPageM (link it))
      (fun pg =>
         run tryCatch (waitForSelectorM pg) (fun _ => ret tt) then
         let* content := contentM pg in
         let html := extract (load e content) in
         if JS.truthy html then ret (setDescription html it) else ret it)
      (fun error =>
         run log "warn" ("investing/latest-news puppeteer fetch failed for "
                           +:+ link it +:+ ": " +:+ errorText error) then
         ret it)
      (destory (link it)).

(** The producer as a call of it proceeds: up to the first suspension, and
    what is left of it. *)
Definition fetchItemStart (it : item) : M V (M V item) :=
  let* rest := tryGotStart it in
  ret (let* (gotOk, it) := rest in afterTryGot gotOk it).

(** most-popular-news.ts, [fetchWithRealBrowser] *)
Definition fetchWithRealBrowser (service : option string) (url selector : string) : M V string :=
  match service with
  | Some svc =>
      if JS.nonempty svc then
        tryCatch
          (run emit (Render svc url selector) then
           match realBrowser e svc url selector with
           | Some jsonData => ret (default "" (JS.or (jsonData ≫= head) (Some "")))
           | None => throw (Rejected "fetch")
           end)
          (fun _ => ret "")
      else ret ""
  | None => ret ""
  end.

(** most-popular-news.ts, [fetchListHtml] *)
Definition fetchListHtml (service : option string) : M V string :=
  let* direct :=
    tryCatch
      (let* listHtml := gotM newsUrl in
       if negb (JS.nonempty listHtml) || isChallengePage listHtml
       then throw (Error "Blocked by Cloudflare")
       else ret (Some listHtml))
      (fun error => if negb usePuppeteer then throw error else ret None) in
  match direct with
  | Some listHtml => ret listHtml
  | None =>
      run log "info" "investing/most-popular-news using puppeteer for list page" then
      let* listHtml := scoped (getPuppeteerPageM newsUrl) contentM (destory newsUrl) in
      if (negb (JS.nonempty listHtml) || isChallengePage listHtml) && JS.truthy service
      then
        run log "info" "investing/most-popular-news using real-browser service for list page" then
        let* html := fetchWithRealBrowser service newsUrl ".largeTitle, #leftColumn, article" in
        if JS.nonempty html then ret html else ret listHtml
      else ret listHtml
  end.

End Handlers.

(** What a request and the process configuration give a handler. *)
Record request := {
  query_limit : option string;
  query_puppeteer : option string;
  env_usePuppeteer : option string;   (* process.env.Investing_UsePuppeteer *)
  creds : sources;                    (* query, cookie header, process.env.Investing_Cookie *)
  service : option string;            (* config.puppeteerRealBrowserService *)
  sched : list nat;                   (* the order in which the responses arrive *)
}.

(** [ctx.req.query('limit') ? Number.parseInt(ctx.req.query('limit'), 10) : 20] *)
Definition limit (r : request) : option Z :=
  match query_limit r with
  | Some s => if JS.nonempty s then JS.parseInt s else Some 20%Z
  | None => Some 20%Z
  end.

Definition cookieOf (r : request) : string := InvestingCredential.cookie (creds r).
Definition usePuppeteerOf (r : request) : bool :=
  InvestingCredential.usePuppeteer (query_puppeteer r) (env_usePuppeteer r).

Section LatestNews.
Context (e : env) (r : request).

Definition fetchItem (it : item) : M item item :=
  tryGet (link it) (fetchItemProducer e (cookieOf r) (usePuppeteerOf r) it).

(** The callback of [.map] over the sliced entries of the feed. *)
Definition toItem (x : rssItem) : M item item :=
  let l := default "" (rss_link x) in
  let* href := (if JS.startsWith "http" l then ret l
                else match resolveUrl e l with
                     | Some h => ret h
                     | None => throw (Rejected "new URL")
                     end) in
  ret {| title := rss_title x; link := href;
         author := JS.nullish (rss_author x) (rss_creator x);
         pubDate := parseDate e (JS.nullish (rss_isoDate x) (rss_pubDate x));
         description := None |}.

Fixpoint mapItems (xs : list rssItem) : M item (list item) :=
  match xs with
  | [] => ret []
  | x :: xs' => let* y := toItem x in let* ys := mapItems xs' in ret (y :: ys)
  end.

(** The two policies at the end of the handler. *)
Definition runBatch (items : list item) : M item (list item) :=
  if usePuppeteerOf r then forPush fetchItem items []
  else promiseAll link (fetchItemStart e (cookieOf r) (usePuppeteerOf r)) items (sched r).

(** latest-news.ts, [handler] *)
Definition latestNews : M item data :=
  run log "info" (InvestingCredential.logLine "investing/latest-news" (creds r) (usePuppeteerOf r)) then
  let* feedResponse := gotM e (cookieOf r) feedUrl in
  let feedContent := JS.trimStart feedResponse in
  if negb (JS.startsWith "<" feedContent)
  then throw (Error "RSS feed is not valid XML, maybe blocked by Cloudflare. Try passing a valid cookie.")
  else
    match parseString e feedContent with
    | None => throw (Rejected "parser.parseString")
    | Some f =>
        let* items := mapItems (JS.sliceTo (limit r) (default [] (feed_items f))) in
        let* items := runBatch items in
        ret {| data_title := default "Investing.com 最新资讯" (feed_title f);
               data_link := rootUrl +:+ "/news/latest-news";
               data_item := items |}
    end.

End LatestNews.

Section MostPopularNews.
Context (e : env) (r : request).

(** most-popular-news.ts, [handler] *)
Definition mostPopularNews : M item data :=
  run log "info" (InvestingCredential.logLine "investing/most-popular-news" (creds r) (usePuppeteerOf r)) then
  let* listHtml := fetchListHtml e (cookieOf r) (usePuppeteerOf r) (service r) in
  match parseList e listHtml with
  | None => throw (Rejected "new URL")
  | Some listItems =>
      if bool_decide (length listItems = 0) && negb (JS.nonempty (cookieOf r))
           && negb (usePuppeteerOf r)
      then throw (Error "Failed to parse list page. Try passing a valid cookie or enabling puppeteer.")
      else ret {| data_title := "Investing.com 最热资讯";
                  data_link := newsUrl;
                  data_item := JS.sliceTo (limit r) listItems |}
  end.

End MostPopularNews.

End Investing.

(** ** The douyin routes *)
Module Douyin.

(** The part of the post data the handlers test: [data?.aweme_list]. *)
Record postData := {
  aweme_list : option (list string);
}.

(** [data?.aweme_list?.length], as a condition *)
Definition hasPosts (d : option postData) : bool :=
  match d ≫= aweme_list with
  | Some (_ :: _) => true
  | _ => false
  end.

Record data := {
  data_title : string;
  data_link : string;
  data_item : list string;
}.

(** The collaborators of the two handlers. *)
Record env := {
  puppeteer : bool;                              (* puppeteer() resolves *)
  newPage : bool;                                (* browser.newPage() resolves *)
  setRequestInterception : bool;
  setCookies : bool;
  goto : option (option (option string));        (* page.goto: throws, or null, or a response
                                                    whose text() throws or gives the html *)
  waitForResponse : bool;
  intercepted : option postData;                 (* what the response listener left in postData *)
  matchRenderData : string → option string;      (* the RENDER_DATA pattern on the html *)
  renderDataNode : option (option string);       (* waitForSelector, then evaluate *)
  parseRenderData : string → option (option postData);
                                                 (* JSON.parse(decodeURIComponent(text)), then
                                                    extractPostDataFromRenderData *)
  webApi : option (string * option postData);    (* got(apiUrl): status and data *)
  assemble : postData → option data;             (* the feed built from the posts *)
}.

Definition emptyPostData : string := "Empty post data. The request may be filtered by WAF.".
Definition invalidUid : string := "Invalid UID. UID should start with <b>MS4wLjABAAAA</b>.".

Section Handlers.
Context (e : env).

Definition call (ok : bool) (what : string) : M postData unit :=
  if ok then ret tt else throw (Rejected what).

(** user.ts, the producer handed to [cache.tryGet] *)
Definition userProducer (cookie : option string) (uid : string) : M postData postData :=
  let pageUrl := "https://www.douyin.com/user/" +:+ uid in
  run emit (Launch pageUrl) then
  run call (puppeteer e) "puppeteer" then
  run emit (Open pageUrl) then
  run call (newPage e) "browser.newPage" then
  run call (setRequestInterception e) "page.setRequestInterception" then
  run (if JS.truthy cookie
       then tryCatch (call (setCookies e) "setCookies")
              (fun error => log "warn" ("Failed to set douyin cookies in puppeteer: " +:+ errorText error))
       else ret tt) then
  run log "http" ("Requesting " +:+ pageUrl) then
  let* mainResponse := match goto e with
                       | Some resp => ret resp
                       | None => throw (Rejected "page.goto")
                       end in
  run tryCatch (call (waitForResponse e) "TimeoutError")
        (fun error => log "warn" ("Waiting for /web/aweme/post timed out: " +:+ errorText error)) then
  let* htmlFromResponse :=
    match mainResponse with
    | Some resp =>
        tryCatch (match resp with
                  | Some html => ret (Some html)
                  | None => throw (Rejected "mainResponse.text")
                  end)
          (fun error =>
             run log "warn" ("Failed to read douyin page response: " +:+ errorText error) then
             ret None)
    | None => ret None
    end in
  let renderDataText :=
    match htmlFromResponse with
    | Some html => if JS.nonempty html then matchRenderData e html else None
    | None => None
    end in
  let* renderDataText :=
    if negb (JS.truthy renderDataText)
    then tryCatch (match renderDataNode e with
                   | Some text => ret text
                   | None => throw (Rejected "page.waitForSelector")
                   end)
           (fun _ => ret None)
    else ret renderDataText in
  run emit (Close pageUrl) then
  let postData := intercepted e in
  let* postData :=
    match postData, renderDataText with
    | None, Some text =>
        if JS.nonempty text then
          tryCatch (match parseRenderData e text with
                    | Some renderPostData =>
                        if hasPosts renderPostData
                        then run log "warn" "Falling back to render data for douyin user posts." then
                             ret renderPostData
                        else ret postData
                    | None => throw (Rejected "JSON.parse")
                    end)
            (fun error =>
               run log "warn" ("Failed to parse RENDER_DATA: " +:+ errorText error) then
               ret postData)
        else ret postData
    | _, _ => ret postData
    end in
  let* postData :=
    match postData with
    | None =>
        tryCatch
          (run emit (Got "https://www.douyin.com/aweme/v1/web/aweme/post/" (default "" cookie)) then
           match webApi e with
           | Some (_, d) =>
               if hasPosts d
               then run log "warn" "Falling back to web api for douyin user posts." then ret d
               else ret postData
           | None => throw (Rejected "got")
           end)
          (fun error =>
             run log "warn" ("Failed to fetch douyin web api: " +:+ errorText error) then
             ret postData)
    | Some _ => ret postData
    end in
  match postData with
  | Some d => ret d
  | None => throw (Error emptyPostData)
  end.

(** user.ts, [handler] *)
Definition user (uid : string) (headerCookie config : option string) : M postData data :=
  if negb (JS.startsWith "MS4wLjABAAAA" uid)
  then throw (InvalidParameterError invalidUid)
  else
    let cookie := DouyinCredential.cookie headerCookie config in
    run log "info" (DouyinCredential.logLine headerCookie config) then
    let* pageData := tryGet ("douyin:user:" +:+ uid) (userProducer cookie uid) in
    if negb (hasPosts (Some pageData)) then throw (Error emptyPostData)
    else match assemble e pageData with
         | Some d => ret d
         | None => throw (Rejected "TypeError")
         end.

(** user-web.ts, the producer handed to [cache.tryGet] *)
Definition userWebProducer (cookie : option string) (uid : string) : M postData postData :=
  run emit (Got "https://www.douyin.com/aweme/v1/web/aweme/post/" (default "" cookie)) then
  match webApi e with
  | Some (status, d) =>
      if negb (hasPosts d)
      then run log "warn" ("Douyin web api empty. status=" +:+ status) then
           throw (Error emptyPostData)
      else match d with
           | Some d => ret d
           | None => throw (Error emptyPostData)
           end
  | None => throw (Rejected "got")
  end.

(** user-web.ts, [handler] *)
Definition userWeb (uid : string) (headerCookie config : option string) : M postData data :=
  if negb (JS.startsWith "MS4wLjABAAAA" uid)
  then throw (InvalidParameterError invalidUid)
  else
    let cookie := DouyinCredential.cookie headerCookie config in
    run log "info" (DouyinCredential.logLine headerCookie config) then
    let* pageData := tryGet ("douyin:user-web:" +:+ uid) (userWebProducer cookie uid) in
    match assemble e pageData with
    | Some d => ret d
    | None => throw (Rejected "TypeError")
    end.

End Handlers.

End Douyin.

(** ** The single-flight cache *)
Module DedupCache.

Section Cache.
Context {T : Type}.

Inductive outcome :=
| Value (v : T)
| Failure (err : error).

Inductive entry :=
| Pending (ttl : nat) (waiters : list nat)
| Ready (v : T) (expiresAt : nat)
| Failed (err : error) (expiresAt : nat).

Record cache := Cache {
  entries : gmap string entry;
  now : nat;
  invoked : list string;                    (* keys whose producer was started *)
  delivered : list (nat * string * outcome); (* caller, key, what it received *)
}.

(** What happens to the cache: a caller asks for a key, the producer
    running for a key finishes, time passes. *)
Inductive action :=
| Call (caller : nat) (key : string) (ttl : nat)
| Resolve (key : string) (r : outcome)
| Tick (dt : nat).

(** The time a failure stays stored ([0]: evicted at once). *)
Context (negativeTtl : nat).

Definition start (c : cache) (caller : nat) (key : string) (ttl : nat) : cache :=
  Cache (<[key := Pending ttl [caller]]> (entries c)) (now c)
        (invoked c ++ [key]) (delivered c).

Definition deliver (c : cache) (caller : nat) (key : string) (r : outcome) : cache :=
  Cache (entries c) (now c) (invoked c) (delivered c ++ [(caller, key, r)]).

(** Modelled from the spec: [getOrCompute] of the dedup cache
    ([cache.tryGet] of [@/utils/cache], not part of the sources at
    hand), section 4.2: a Ready entry that has not expired is returned at
    once; on a Pending entry the caller is suspended until the producer
    in flight resolves; with no entry (or an expired one, evicted on
    this access) a Pending entry is created and the producer invoked; on
    completion the entry becomes Ready with [expiresAt = now + ttl], or
    Failed, and all waiters are released with the same outcome. *)
Definition step (c : cache) (a : action) : cache :=
  match a with
  | Call caller key ttl =>
      match entries c !! key with
      | Some (Pending t ws) =>
          Cache (<[key := Pending t (ws ++ [caller])]> (entries c)) (now c)
                (invoked c) (delivered c)
      | Some (Ready v ex) =>
          if decide (now c < ex) then deliver c caller key (Value v)
          else start c caller key ttl
      | Some (Failed err ex) =>
          if decide (now c < ex) then deliver c caller key (Failure err)
          else start c caller key ttl
      | None => start c caller key ttl
      end
  | Resolve key r =>
      match entries c !! key with
      | Some (Pending t ws) =>
          Cache (<[key := match r with
                          | Value v => Ready v (now c + t)
                          | Failure err => Failed err (now c + negativeTtl)
                          end]> (entries c))
                (now c) (invoked c)
                (delivered c ++ map (fun w => (w, key, r)) ws)
      | _ => c
      end
  | Tick dt => Cache (entries c) (now c + dt) (invoked c) (delivered c)
  end.

Definition steps (c : cache) (acts : list action) : cache := fold_left step acts c.

(** The callers that ask for [key] in a run, in order. *)
Fixpoint callers (key : string) (acts : list action) : list nat :=
  match acts with
  | [] => []
  | Call caller k _ :: acts' =>
      if decide (k = key) then caller :: callers key acts' else callers key acts'
  | _ :: acts' => callers key acts'
  end.

Definition resolves (key : string) (a : action) : bool :=
  match a with
  | Resolve k _ => bool_decide (k = key)
  | _ => false
  end.

(** How often the producer of [key] was started. *)
Definition invocations (key : string) (c : cache) : nat :=
  length (filter (λ k, k = key) (invoked c)).

(** What the callers of [key] received, in order. *)
Definition received (key : string) (c : cache) : list (nat * outcome) :=
  omap (λ d, match d with
             | (caller, k, r) => if decide (k = key) then Some (caller, r) else None
             end) (delivered c).

End Cache.
Arguments outcome T : clear implicits.
Arguments entry T : clear implicits.
Arguments cache T : clear implicits.
Arguments action T : clear implicits.

End DedupCache.

(** ** Notions the properties are stated with *)

(** The events a computation adds to the trace of [w]. *)
Definition emitted {V A} (m : M V A) (w : world V) : list event :=
  drop (length (trace w)) (trace (m w).2).

Inductive tier := Direct | Browser | ExternalRender.

Global Instance tier_eq_dec : EqDecision tier.
Proof. solve_decision. Defined.

Definition tierOf (ev : event) : option tier :=
  match ev with
  | Got _ _ => Some Direct
  | Launch _ => Some Browser
  | Render _ _ _ => Some ExternalRender
  | _ => None
  end.

(** The tiers a trace attempts, in order. *)
Definition tiers (evs : list event) : list tier := omap tierOf evs.

(** The list page: the direct request threw, or its body is empty or a
    challenge page. *)
Definition directBlocked (e : Investing.env) (cookie : string) : bool :=
  match Investing.got e Investing.newsUrl cookie with
  | Some body => negb (JS.nonempty body) || Investing.isChallengePage body
  | None => true
  end.

(** The list page: the browser gave a content, and it is empty or a
    challenge page. *)
Definition browserBlocked (e : Investing.env) : bool :=
  match Investing.getPuppeteerPage e Investing.newsUrl with
  | Some pg =>
      match Investing.pageContent pg with
      | Some c => negb (JS.nonempty c) || Investing.isChallengePage c
      | None => false
      end
  | None => false
  end.

(** An article: no cookie to send, or the direct request threw, or nothing
    was extracted from its body. *)
Definition gotFailed (e : Investing.env) (cookie : string) (it : Investing.item) : bool :=
  negb (JS.nonempty cookie) ||
  match Investing.got e (Investing.link it) cookie with
  | Some body => negb (JS.truthy (Investing.extract (Investing.load e body)))
  | None => true
  end.

(** The extraction as the specification words it: the strategies in their
    order, the first non-empty result. *)
Fixpoint firstNonEmpty (candidates : list (option string)) : option string :=
  match candidates with
  | [] => None
  | c :: rest => if JS.truthy c then c else firstNonEmpty rest
  end.

Definition specExtract (d : Investing.dom) : option string :=
  firstNonEmpty [head (Investing.byId d); head (Investing.byClass d);
                 head (Investing.byTag d); Investing.ogDescription d].

(** What the handler keeps of an extraction: [if (html) item.description = html]. *)
Definition kept (html : option string) : option string :=
  if JS.truthy html then html else None.

(** No selector matches an element whose inner HTML is empty. *)
Definition noEmptyMatch (d : Investing.dom) : Prop :=
  Forall (λ sel, ∀ h, head sel = Some h → JS.nonempty h = true)
         [Investing.byId d; Investing.byClass d; Investing.byTag d].

(** The sources that are set and non-empty, highest precedence first. *)
Definition present (s : sources) : list string :=
  omap (λ o, if JS.truthy o then o else None) [src_query s; src_header s; src_env s].

(** An article, with the failure of the direct tier as the list page has
    it: the request threw, or its body is a challenge page. *)
Definition articleBlocked (e : Investing.env) (cookie : string) (it : Investing.item) : bool :=
  match Investing.got e (Investing.link it) cookie with
  | Some body => Investing.isChallengePage body
  | None => true
  end.

(** Every request is answered by a challenge page that carries a
    description; the browser would show the article. *)
Definition challengeWithSummary : Investing.env :=
  {| Investing.got := λ _ _, Some "<title>Just a moment...</title>";
     Investing.load := λ _, Investing.Build_dom [] [] [] (Some "summary");
     Investing.getPuppeteerPage :=
       λ _, Some (Investing.Build_page true (Some "<article>text</article>"));
     Investing.parseString := λ _, None;
     Investing.resolveUrl := Some;
     Investing.parseDate := id;
     Investing.parseList := λ _, Some [];
     Investing.realBrowser := λ _ _ _, None |}.

Definition oneItem : Investing.item :=
  {| Investing.title := Some "first"; Investing.link := "https://cn.investing.com/news/1";
     Investing.author := None; Investing.pubDate := None; Investing.description := None |}.

(** The first 32 characters of a credential that may be absent. *)
Definition first32 (cookie : option string) : string := JS.slice0 32 (default "" cookie).

Definition abc : sources :=
  {| src_query := Some "a"; src_header := Some "b"; src_env := Some "c" |}.

(** A computation that never raises [InvalidParameterError]. *)
Definition quiet {V A} (m : M V A) : Prop :=
  ∀ w msg, (m w).1 ≠ Throw (InvalidParameterError msg).

(** A douyin run in which the navigation to the user page times out. *)
Definition navigationTimeout : Douyin.env :=
  {| Douyin.puppeteer := true;
     Douyin.newPage := true;
     Douyin.setRequestInterception := true;
     Douyin.setCookies := true;
     Douyin.goto := None;
     Douyin.waitForResponse := false;
     Douyin.intercepted := None;
     Douyin.matchRenderData := λ _, None;
     Douyin.renderDataNode := None;
     Douyin.parseRenderData := λ _, None;
     Douyin.webApi := None;
     Douyin.assemble := λ _, None |}.

Definition someUid : string := "MS4wLjABAAAARcAHmmF9mAG3JEixq_CdP72APhBlGlLVbN-1eBcPqao".

(** Every entry of the cache is stored under its own link. *)
Definition cacheKeyed (w : world Investing.item) : Prop :=
  ∀ k v, store w !! k = Some v → Investing.link v = k.

(** The computation only appends to the trace, and only events in [P]. *)
Definition emits {V A} (P : event → Prop) (m : M V A) : Prop :=
  ∀ w, ∃ evs, trace (m w).2 = (trace w ++ evs)%list ∧ Forall P evs.

(** The address an event goes to. *)
Definition target (ev : event) : option string :=
  match ev with
  | Got u _ | Launch u | Open u | Close u | Render _ u _ => Some u
  | Log _ _ => None
  end.

(** The event concerns no other address than [u]. *)
Definition about (u : string) (ev : event) : Prop :=
  ∀ v, target ev = Some v → v = u.

(** An event of the latest-news handler goes to the feed, or to the link
    of one of the first [L] entries of a parsed feed. *)
Definition withinLimit (e : Investing.env) (L : nat) (ev : event) : Prop :=
  ∀ u, target ev = Some u →
       u = Investing.feedUrl
       ∨ ∃ c f x it,
           Investing.parseString e c = Some f
           ∧ x ∈ take L (default [] (Investing.feed_items f))
           ∧ (∀ w0, Investing.toItem e x w0 = (Ok it, w0))
           ∧ Investing.link it = u.

(** A list page with three entries, and a request with [limit=-1]. *)
Definition threeEntries : Investing.env :=
  {| Investing.got := λ _ _, Some "<html>list</html>";
     Investing.load := λ _, Investing.Build_dom [] [] [] None;
     Investing.getPuppeteerPage := λ _, None;
     Investing.parseString := λ _, None;
     Investing.resolveUrl := Some;
     Investing.parseDate := id;
     Investing.parseList :=
       λ _, Some [Investing.Build_item (Some "a") "https://cn.investing.com/news/a" None None None;
                  Investing.Build_item (Some "b") "https://cn.investing.com/news/b" None None None;
                  Investing.Build_item (Some "c") "https://cn.investing.com/news/c" None None None];
     Investing.realBrowser := λ _ _ _, None |}.

Definition limitOf (l : string) : Investing.request :=
  {| Investing.query_limit := Some l;
     Investing.query_puppeteer := None;
     Investing.env_usePuppeteer := None;
     Investing.creds := {| src_query := None; src_header := None; src_env := None |};
     Investing.service := None;
     Investing.sched := [] |}.

(** Everything the list page fetch does, by the answers it gets. *)
Definition listEvents (e : Investing.env) (cookie : string) (usePuppeteer : bool)
    (service : option string) : list event :=
  Got Investing.newsUrl cookie ::
  (if directBlocked e cookie && usePuppeteer
   then
     Log "info" "investing/most-popular-news using puppeteer for list page" ::
     Launch Investing.newsUrl ::
     match Investing.getPuppeteerPage e Investing.newsUrl with
     | Some pg =>
         Open Investing.newsUrl :: Close Investing.newsUrl ::
         match service with
         | Some svc =>
             if browserBlocked e && JS.nonempty svc
             then [Log "info" "investing/most-popular-news using real-browser service for list page";
                   Render svc Investing.newsUrl ".largeTitle, #leftColumn, article"]
             else []
         | None => []
         end
     | None => []
     end
   else []).

(** Everything an article fetch does, by the answers it gets. *)
Definition articleEvents (e : Investing.env) (cookie : string) (usePuppeteer : bool)
    (it : Investing.item) : list event :=
  ((if JS.nonempty cookie
    then Got (Investing.link it) cookie ::
         match Investing.got e (Investing.link it) cookie with
         | Some _ => []
         | None => [Log "warn" ("investing/latest-news got fetch failed for "
                                  +:+ Investing.link it +:+ ": got")]
         end
    else [])
   ++ (if gotFailed e cookie it && usePuppeteer
       then
         Log "info" ("investing/latest-news using puppeteer for " +:+ Investing.link it) ::
         Launch (Investing.link it) ::
         match Investing.getPuppeteerPage e (Investing.link it) with
         | Some pg =>
             Open (Investing.link it) ::
             match Investing.pageContent pg with
             | Some _ => []
             | None => [Log "warn" ("investing/latest-news puppeteer fetch failed for "
                                      +:+ Investing.link it +:+ ": page.content")]
             end ++ [Close (Investing.link it)]
         | None => [Log "warn" ("investing/latest-news puppeteer fetch failed for "
                                  +:+ Investing.link it +:+ ": getPuppeteerPage")]
         end
       else []))%list.

(** No producer is in flight for [key] and nothing usable is stored for it. *)
Definition fresh {T} (key : string) (c : DedupCache.cache T) : Prop :=
  match DedupCache.entries c !! key with
  | None => True
  | Some (DedupCache.Pending _ _) => False
  | Some (DedupCache.Ready _ ex) | Some (DedupCache.Failed _ ex) => DedupCache.now c ≥ ex
  end.

(** Inputs of the examples. *)
Definition emptyContainer : Investing.dom :=
  {| Investing.byId := [""]; Investing.byClass := ["<p>text</p>"];
     Investing.byTag := []; Investing.ogDescription := Some "summary" |}.

Definition blockedEverywhere : Investing.env :=
  {| Investing.got := λ _ _, Some "<title>Just a moment...</title>";
     Investing.load := λ _, Investing.Build_dom [] [] [] None;
     Investing.getPuppeteerPage :=
       λ _, Some (Investing.Build_page false (Some "<title>Just a moment...</title>"));
     Investing.parseString := λ _, None;
     Investing.resolveUrl := Some;
     Investing.parseDate := id;
     Investing.parseList := λ _, Some [];
     Investing.realBrowser := λ _ _ _, Some (Some []) |}.

Definition withService : Investing.request :=
  {| Investing.query_limit := None;
     Investing.query_puppeteer := Some "true";
     Investing.env_usePuppeteer := None;
     Investing.creds := {| src_query := None; src_header := None; src_env := None |};
     Investing.service := Some "http://render";
     Investing.sched := [] |}.

Definition twoItems : list Investing.item :=
  [ {| Investing.title := Some "first"; Investing.link := "https://cn.investing.com/news/1";
       Investing.author := None; Investing.pubDate := None; Investing.description := None |};
    {| Investing.title := Some "second"; Investing.link := "https://cn.investing.com/news/2";
       Investing.author := None; Investing.pubDate := None; Investing.description := None |} ].

Definition reversedSchedule : Investing.request :=
  {| Investing.query_limit := None;
     Investing.query_puppeteer := None;
     Investing.env_usePuppeteer := None;
     Investing.creds := {| src_query := Some "sid=1"; src_header := None; src_env := None |};
     Investing.service := None;
     Investing.sched := [1; 0] |}.

(** The keys of [ks] that the cache [st] does not hold and that are not in
    [seen], each once, in the order of their first occurrence. *)
Fixpoint uncached {V} (st : gmap string V) (seen ks : list string) : list string :=
  match ks with
  | [] => []
  | k :: ks' =>
      if decide (is_Some (st !! k) ∨ k ∈ seen) then uncached st seen ks'
      else k :: uncached st (k :: seen) ks'
  end.

(** The first item of a batch with the link [l]. *)
Definition firstWith (l : string) (items : list Investing.item) : option Investing.item :=
  head (filter (λ x, Investing.link x = l) items).

(** The requests that a concurrent batch sends for its articles. *)
Definition articleRequests (cookie : string) (w : world Investing.item)
    (items : list Investing.item) : list event :=
  if JS.nonempty cookie
  then map (λ l, Got l cookie) (uncached (store w) [] (map Investing.link items))
  else [].

Definition isWarning (ev : event) : Prop := ∃ msg, ev = Log "warn" msg.

(** [f] is run on the elements of [xs] one after the other, each call
    starting in the world the one before has left, and [out] has the results
    in this order. *)
Fixpoint oneAtATime {V A B} (f : A → M V B) (xs : list A) (w : world V)
    (out : list B) (w' : world V) : Prop :=
  match xs, out with
  | [], [] => w' = w
  | x :: xs', y :: out' => ∃ w1, f x w = (Ok y, w1) ∧ oneAtATime f xs' w1 out' w'
  | _, _ => False
  end.

(** What an article fetch without puppeteer gives for an item. *)
Definition directOutcome (e : Investing.env) (cookie : string) (it : Investing.item) :
    Investing.item :=
  if JS.nonempty cookie then
    match Investing.got e (Investing.link it) cookie with
    | Some body =>
        let html := Investing.extract (Investing.load e body) in
        if JS.truthy html then Investing.setDescription html it else it
    | None => it
    end
  else it.

(** The values of the promises of a concurrent batch over the cache [st],
    when the producer started for [x] returns [val x]: [fl] has the values
    of the producers in flight. *)
Fixpoint outcomes {V A} (key : A → string) (val : A → V) (st fl : gmap string V)
    (xs : list A) : list V :=
  match xs with
  | [] => []
  | x :: xs' =>
      match st !! key x with
      | Some v => v :: outcomes key val st fl xs'
      | None =>
          match fl !! key x with
          | Some v => v :: outcomes key val st fl xs'
          | None => val x :: outcomes key val st (<[key x := val x]> fl) xs'
          end
      end
  end.

(** The keys whose producer a concurrent batch starts, in this order. *)
Fixpoint asked {V A} (key : A → string) (val : A → V) (st fl : gmap string V)
    (xs : list A) : list string :=
  match xs with
  | [] => []
  | x :: xs' =>
      match st !! key x with
      | Some v => asked key val st fl xs'
      | None =>
          match fl !! key x with
          | Some v => asked key val st fl xs'
          | None => key x :: asked key val st (<[key x := val x]> fl) xs'
          end
      end
  end.

(** Every call has the value [target] gives its position, or awaits a
    producer that returns it. *)
Definition awaited {V A} (restOf : A → M V V) (val : A → V) (fl : gmap string V)
    (hs : list (pending V)) (target : list V) : Prop :=
  Forall2 (λ h o, match h with
                  | Stored v => v = o
                  | Awaits k rest => fl !! k = Some o ∧ ∃ x, rest = restOf x ∧ val x = o
                  end) hs target.

(** What is left of the producer of an article, puppeteer off, after its
    first suspension. *)
Definition directRest (e : Investing.env) (cookie : string) (it : Investing.item) :
    M Investing.item Investing.item :=
  match (Investing.fetchItemStart e cookie false it (World [] ∅)).1 with
  | Ok rest => rest
  | Throw err => throw err
  end.

(** No article can be fetched: every request fails. *)
Definition unreachable : Investing.env :=
  {| Investing.got := λ _ _, None;
     Investing.load := λ _, Investing.Build_dom [] [] [] None;
     Investing.getPuppeteerPage := λ _, None;
     Investing.parseString := λ _, None;
     Investing.resolveUrl := Some;
     Investing.parseDate := id;
     Investing.parseList := λ _, Some [];
     Investing.realBrowser := λ _ _ _, None |}.

(** Two entries of a feed with one link. *)
Definition sameLink : list Investing.item :=
  [ {| Investing.title := Some "first"; Investing.link := "https://cn.investing.com/news/1";
       Investing.author := None; Investing.pubDate := None; Investing.description := None |};
    {| Investing.title := Some "again"; Investing.link := "https://cn.investing.com/news/1";
       Investing.author := None; Investing.pubDate := None; Investing.description := None |} ].

(** ** Further string operations of the handlers *)
Module Text.

(** [s.split(sep)] for a separator of one character: never empty. *)
Fixpoint split (sep : ascii) (s : string) : list string :=
  match s with
  | EmptyString => [EmptyString]
  | String c s' =>
      if decide (c = sep) then EmptyString :: split sep s'
      else match split sep s' with
           | h :: t => String c h :: t
           | [] => [String c EmptyString]
           end
  end.

(** [s.trimEnd()] *)
Fixpoint trimEnd (s : string) : string :=
  match s with
  | EmptyString => EmptyString
  | String c s' =>
      match trimEnd s' with
      | EmptyString => if JS.isWhite c then EmptyString else String c EmptyString
      | t => String c t
      end
  end.

(** [s.trim()] *)
Definition trim (s : string) : string := trimEnd (JS.trimStart s).

(** [s.indexOf(c)]; [None] is [-1]. *)
Fixpoint indexOf (c : ascii) (s : string) : option nat :=
  match s with
  | EmptyString => None
  | String d s' => if decide (d = c) then Some 0 else S <$> indexOf c s'
  end.

(** [s.slice(n)] for a non-negative [n]. *)
Fixpoint sliceFrom (n : nat) (s : string) : string :=
  match n, s with
  | S n', String _ s' => sliceFrom n' s'
  | _, _ => s
  end.

(** [s.replaceAll(c, d)] for single characters. *)
Fixpoint replaceAll (c d : ascii) (s : string) : string :=
  match s with
  | EmptyString => EmptyString
  | String x s' => String (if decide (x = c) then d else x) (replaceAll c d s')
  end.

(** The character occurs in the string. *)
Fixpoint has (c : ascii) (s : string) : bool :=
  match s with
  | EmptyString => false
  | String d s' => bool_decide (d = c) || has c s'
  end.

End Text.

(** ** investing/most-popular-news.ts: the cookies replayed in the browser *)
Module Cookies.

Record cookieParam := {
  name : string;
  value : string;
  domain : string;
}.

(** [new URL(rootUrl).hostname] *)
Definition cookieDomain : string := "cn.investing.com".

Definition cookieKeysToSkip : list string :=
  ["path"; "domain"; "expires"; "max-age"; "secure"; "httponly"; "samesite"; "priority"].

(** The callback of the second [.map] of [parseCookieHeader]; [None] is [null]. *)
Definition toCookie (part : string) : option cookieParam :=
  match Text.indexOf "=" part with
  | None | Some 0 => None
  | Some index =>
      let name := Text.trim (JS.slice0 index part) in
      if negb (JS.nonempty name) || bool_decide (JS.toLowerCase name ∈ cookieKeysToSkip)
      then None
      else Some {| name := name; value := Text.sliceFrom (index + 1) part;
                   domain := cookieDomain |}
  end.

(** most-popular-news.ts, [parseCookieHeader] *)
Definition parseCookieHeader (cookieHeader : string) : list cookieParam :=
  omap toCookie (filter (λ part, JS.nonempty part = true)
                        (map Text.trim (Text.split ";" cookieHeader))).

End Cookies.
(** ** douyin/user.ts: the search for the posts in the render data *)
Module RenderData.

(** A value as [JSON.parse] gives it: a tree, so that no object is met
    twice; the fields of an object are its own properties in the order
    [Object.values] enumerates them, with distinct keys. *)
#[local] Set Warnings "-register-all".
Inductive json :=
| JNull
| JBool (b : bool)
| JNum (n : Z)
| JStr (s : string)
| JArr (items : list json)
| JObj (fields : list (string * json)).

(** [value && typeof value === 'object'] *)
Definition isObject (j : json) : bool :=
  match j with
  | JArr _ | JObj _ => true
  | _ => false
  end.

(** [Array.isArray(value)], on a value that may be [undefined] *)
Definition isArray (j : option json) : bool :=
  match j with
  | Some (JArr _) => true
  | _ => false
  end.

Fixpoint lookup (key : string) (fields : list (string * json)) : option json :=
  match fields with
  | [] => None
  | (k, v) :: rest => if decide (k = key) then Some v else lookup key rest
  end.

(** [candidate[key]] for a key that is no array index *)
Definition get (key : string) (j : json) : option json :=
  match j with
  | JObj fields => lookup key fields
  | _ => None
  end.

(** [Object.values(candidate)] *)
Definition values (j : json) : list json :=
  match j with
  | JObj fields => map snd fields
  | JArr items => items
  | _ => []
  end.

Fixpoint setField (key : string) (v : json) (fields : list (string * json)) :
    list (string * json) :=
  match fields with
  | [] => [(key, v)]
  | (k, w) :: rest => if decide (k = key) then (k, v) :: rest else (k, w) :: setField key v rest
  end.

(** [{ ...candidate, aweme_list: v }] *)
Definition withAwemeList (candidate v : json) : json :=
  match candidate with
  | JObj fields => JObj (setField "aweme_list" v fields)
  | _ => JObj [("aweme_list", v)]
  end.

(** [first && typeof first === 'object' && 'aweme_id' in first] *)
Definition hasAwemeId (first : option json) : bool :=
  match first with
  | Some (JObj fields) => bool_decide (is_Some (lookup "aweme_id" fields))
  | _ => false
  end.

(** The [for] loop over the values of a candidate: the posts it returns, or
    the stack with the loop's pushes. *)
Fixpoint scan (vals : list json) (stack : list json) : json + list json :=
  match vals with
  | [] => inr stack
  | value :: rest =>
      match value with
      | JArr items =>
          if hasAwemeId (head items) then inl (JObj [("aweme_list", value)])
          else scan rest stack
      | JObj _ => scan rest (stack ++ [value])
      | _ => scan rest stack
      end
  end.

(** [stack.pop()]: the last element and the others. *)
Definition pop (stack : list json) : option (json * list json) :=
  match reverse stack with
  | [] => None
  | top :: rest => Some (top, reverse rest)
  end.

(** The [while] loop; the outer [None] is an exhausted [fuel]. *)
Fixpoint search (fuel : nat) (stack : list json) : option (option json) :=
  match fuel with
  | 0 => None
  | S fuel' =>
      match pop stack with
      | None => Some None
      | Some (current, stack') =>
          if negb (isObject current) then search fuel' stack'
          else if isArray (get "aweme_list" current) then Some (Some current)
          else if isArray (get "awemeList" current)
               then Some (withAwemeList current <$> get "awemeList" current)
          else match scan (values current) stack' with
               | inl found => Some (Some found)
               | inr stack'' => search fuel' stack''
               end
      end
  end.

(** The number of nodes of a value. *)
Fixpoint size (j : json) : nat :=
  match j with
  | JArr items => S (list_sum (map size items))
  | JObj fields => S (list_sum (map (λ kv, match kv with (_, v) => size v end) fields))
  | _ => 1
  end.

(** douyin/user.ts, [extractPostDataFromRenderData]; [None] is [undefined].
    The loop pops one node per round, so the nodes of the value bound the
    rounds. *)
Definition extractPostDataFromRenderData (renderData : json) : option json :=
  if negb (isObject renderData) then None
  else default None (search (S (size renderData)) [renderData]).

End RenderData.

(** ** Notions the further properties are stated with *)

(** A trimmed string neither starts nor ends with white space. *)
Definition trimmed (s : string) : Prop := Text.trim s = s.

(** A cookie as [parseCookieHeader] returns it. *)
Record cookieOk (c : Cookies.cookieParam) : Prop := {
  ok_name : JS.nonempty (Cookies.name c) = true;
  ok_trimmed : trimmed (Cookies.name c);
  ok_no_eq : Text.has "=" (Cookies.name c) = false;
  ok_no_semi : Text.has ";" (Cookies.name c) = false;
  ok_value : Text.has ";" (Cookies.value c) = false;
  ok_keyword : JS.toLowerCase (Cookies.name c) ∉ Cookies.cookieKeysToSkip;
  ok_domain : Cookies.domain c = Cookies.cookieDomain;
}.

(** A [Cookie] header for a list of cookies. *)
Definition renderCookies (cs : list Cookies.cookieParam) : string :=
  JS.join "; " (map (λ c, Cookies.name c +:+ "=" +:+ Cookies.value c) cs).

(** A value that occurs inside [root]. *)
Inductive within (root : RenderData.json) : RenderData.json → Prop :=
| within_root : within root root
| within_value (parent v : RenderData.json) :
    within root parent → v ∈ RenderData.values parent → within root v.

(** A value the search can reach from [start]: [start] itself, or a value
    reached from one of its values that is an object proper. *)
Inductive reached (start : RenderData.json) : RenderData.json → Prop :=
| reached_start : reached start start
| reached_field (fields : list (string * RenderData.json)) (x : RenderData.json) :
    RenderData.JObj fields ∈ RenderData.values start →
    reached (RenderData.JObj fields) x → reached start x.

(** One of the three tests of the loop succeeds on a candidate. *)
Definition hit (candidate : RenderData.json) : bool :=
  RenderData.isArray (RenderData.get "aweme_list" candidate)
  || RenderData.isArray (RenderData.get "awemeList" candidate)
  || existsb (λ v, match v with
                   | RenderData.JArr items => RenderData.hasAwemeId (head items)
                   | _ => false
                   end) (RenderData.values candidate).

(** An object that is no array. *)
Definition plainObject (v : RenderData.json) : bool :=
  match v with
  | RenderData.JObj _ => true
  | _ => false
  end.

Definition stackSize (stack : list RenderData.json) : nat :=
  list_sum (map RenderData.size stack).

(** Inputs of the further examples. *)
Definition twoCookies : list Cookies.cookieParam :=
  [ {| Cookies.name := "sid"; Cookies.value := "1"; Cookies.domain := Cookies.cookieDomain |};
    {| Cookies.name := "udid"; Cookies.value := "a=b"; Cookies.domain := Cookies.cookieDomain |} ].

(** Render data with the posts two objects down, beside an array that is
    not looked into. *)
Definition nestedPosts : RenderData.json :=
  RenderData.JObj
    [("app", RenderData.JObj [("odin", RenderData.JStr "x")]);
     ("skipped", RenderData.JArr [RenderData.JObj [("aweme_list", RenderData.JArr [])]]);
     ("user", RenderData.JObj
        [("post", RenderData.JObj
            [("data", RenderData.JArr
                [RenderData.JObj [("aweme_id", RenderData.JStr "7")]])])])].

(** Render data whose only posts sit inside an array of objects. *)
Definition hiddenPosts : RenderData.json :=
  RenderData.JObj
    [("list", RenderData.JArr [RenderData.JObj [("aweme_list", RenderData.JArr [])]])].

(** * Properties *)

Local Open Scope nat_scope.
Local Open Scope list_scope.
#[local] Set Warnings "-clear-no-such-hyp".

(** ** Strings *)

Lemma slice0_length n s : String.length (JS.slice0 n s) = min n (String.length s).
Proof.
  revert s. induction n as [|n IH]; intros [|c s]; simpl; try done.
  by rewrite IH.
Qed.

Lemma slice0_prefix n s : ∃ rest, s = JS.slice0 n s +:+ rest.
Proof.
  revert s. induction n as [|n IH]; intros [|c s]; simpl; eauto.
  destruct (IH s) as [rest Hrest]. exists rest.
  change (String c s = String c (JS.slice0 n s +:+ rest)). by f_equal.
Qed.

Lemma slice0_whole n s : JS.slice0 n s = s ↔ String.length s ≤ n.
Proof.
  revert s. induction n as [|n IH]; intros [|c s]; simpl; split; intros H; try done; try lia.
  - injection H as H. apply IH in H. lia.
  - f_equal. apply IH. lia.
Qed.

Lemma nonempty_length s : JS.nonempty s = true ↔ 0 < String.length s.
Proof. destruct s; simpl; split; intros; try done; lia. Qed.

Lemma nonempty_length_eq s t :
  String.length s = String.length t → JS.nonempty s = JS.nonempty t.
Proof. destruct s, t; simpl; intros; congruence. Qed.

(** ** Credential resolution *)

(** C1, as stated, fails on the investing handlers: with query "a", header
    "b" and environment "c" the resolved cookie is the concatenation
    "a; b; c", not the query value alone. *)
Lemma investing_sources_are_joined :
  ¬ (∀ s q, src_query s = Some q →
            JS.truthy (src_query s) = true → JS.truthy (src_header s) = true →
            JS.truthy (src_env s) = true →
            InvestingCredential.cookie s = q)
  ∧ InvestingCredential.cookie abc = "a; b; c"
  ∧ InvestingCredential.cookieSource abc = "query+env/header".
Proof.
  split; [|done]. intros H. specialize (H abc "a"). by discriminate H.
Qed.

(** C1 (amended): in xiaohongshu/check-cookie the highest-precedence
    non-empty source among query, header and configuration is the resolved
    credential, alone, and names the provenance; in the investing handlers
    the resolved credential is the non-empty sources joined by "; " in the
    order query, header, environment, and the provenance label is that of the
    highest-precedence non-empty source. *)
Theorem credential_precedence (s : sources) :
  (JS.truthy (src_query s) = true →
     XiaohongshuCredential.cookie s = src_query s
     ∧ XiaohongshuCredential.cookieSource s = "query"
     ∧ InvestingCredential.cookieSource s = "query+env/header")
  ∧ (JS.truthy (src_query s) = false → JS.truthy (src_header s) = true →
     XiaohongshuCredential.cookie s = src_header s
     ∧ XiaohongshuCredential.cookieSource s = "header"
     ∧ InvestingCredential.cookieSource s = "header+env")
  ∧ (JS.truthy (src_query s) = false → JS.truthy (src_header s) = false →
     XiaohongshuCredential.cookie s = src_env s
     ∧ XiaohongshuCredential.cookieSource s = (if JS.truthy (src_env s) then "config" else "none")
     ∧ InvestingCredential.cookieSource s = (if JS.truthy (src_env s) then "env" else "none"))
  ∧ InvestingCredential.cookie s = JS.join "; " (present s).
Proof.
  destruct s as [q h e].
  destruct q as [[|]|], h as [[|]|], e as [[|]|];
    vm_compute; repeat split; intros; done.
Qed.

Lemma credential_precedence_witness :
  (XiaohongshuCredential.cookie abc = Some "a"
   ∧ XiaohongshuCredential.cookieSource abc = "query"
   ∧ InvestingCredential.cookieSource abc = "query+env/header")
  ∧ InvestingCredential.cookie abc = "a; b; c".
Proof.
  pose proof (credential_precedence abc) as (Hq & _ & _ & Hj).
  split; [apply Hq; reflexivity | exact Hj].
Defined.

(** With header and environment only, check-cookie takes the header value. *)
Example header_over_env :
  let s := {| src_query := None; src_header := Some "b"; src_env := Some "c" |} in
  XiaohongshuCredential.cookie s = Some "b"
  ∧ XiaohongshuCredential.cookieSource s = "header"
  ∧ InvestingCredential.cookie s = "b; c"
  ∧ DouyinCredential.cookie (Some "b") (Some "c") = Some "b"
  ∧ DouyinCredential.cookieSource (Some "b") (Some "c") = "header".
Proof. done. Qed.

(** ** The log record *)

Lemma cookiePrefix_bounded cookie : String.length (cookiePrefix cookie) ≤ 32.
Proof.
  unfold cookiePrefix. destruct cookie as [c|]; [|simpl; lia].
  destruct (JS.nonempty c); [|simpl; lia].
  rewrite slice0_length. lia.
Qed.

Lemma cookiePrefix_is_prefix c :
  JS.nonempty c = true → ∃ rest, c = cookiePrefix (Some c) +:+ rest.
Proof. intros H. unfold cookiePrefix. rewrite H. apply slice0_prefix. Qed.

Lemma cookiePrefix_whole c :
  JS.nonempty c = true → (cookiePrefix (Some c) = c ↔ String.length c ≤ 32).
Proof. intros H. unfold cookiePrefix. rewrite H. apply slice0_whole. Qed.

(** C2, as stated, fails: a credential of at most 32 characters is written
    to the log in full. *)
Lemma short_credential_logged_in_full :
  let s := {| src_query := Some "sid=secret"; src_header := None; src_env := None |} in
  InvestingCredential.cookie s = "sid=secret"
  ∧ rec_prefix (InvestingCredential.record s) = InvestingCredential.cookie s
  ∧ rec_prefix (XiaohongshuCredential.record s) = "sid=secret"
  ∧ InvestingCredential.logLine "investing/latest-news" s false
    = "investing/latest-news cookie source=query+env/header, length=10, prefix=sid=secret, puppeteer=false".
Proof. vm_compute. done. Qed.

Lemma cookiePrefix_first32 (cookie : option string) :
  cookiePrefix cookie = if decide (cookieLength cookie = 0) then "none" else first32 cookie.
Proof. by destruct cookie as [[|c s]|]. Qed.

(** C2 (amended): in the investing, douyin and xiaohongshu handlers the
    line that is logged holds the provenance label, the length of the
    resolved credential and its first 32 characters ('none' for an empty
    credential), and nothing else of the credential: the preview never has
    more than 32 characters, is always a prefix of the credential, and is the
    whole credential exactly when it has at most 32 characters; two
    credentials with the same label, length and first 32 characters give the
    same log line. *)
Theorem log_holds_bounded_prefix (s : sources) (h cfg : option string) :
  (∀ route p,
     InvestingCredential.logLine route s p
     = credentialLine route
         {| rec_source := InvestingCredential.cookieSource s;
            rec_length := String.length (InvestingCredential.cookie s);
            rec_prefix := cookiePrefix (Some (InvestingCredential.cookie s)) |}
       +:+ ", puppeteer=" +:+ (if p then "true" else "false"))
  ∧ XiaohongshuCredential.logLine s
    = credentialLine "xiaohongshu/check-cookie"
        {| rec_source := XiaohongshuCredential.cookieSource s;
           rec_length := cookieLength (XiaohongshuCredential.cookie s);
           rec_prefix := cookiePrefix (XiaohongshuCredential.cookie s) |}
  ∧ DouyinCredential.logLine h cfg
    = "Douyin cookie source=" +:+ DouyinCredential.cookieSource h cfg
        +:+ ", length=" +:+ pretty (cookieLength (DouyinCredential.cookie h cfg))
        +:+ ", prefix=" +:+ cookiePrefix (DouyinCredential.cookie h cfg)
  ∧ (∀ cookie, String.length (cookiePrefix cookie) ≤ 32)
  ∧ (∀ c, JS.nonempty c = true →
       (∃ rest, c = cookiePrefix (Some c) +:+ rest)
       ∧ (cookiePrefix (Some c) = c ↔ String.length c ≤ 32))
  ∧ (∀ route s' p,
       InvestingCredential.cookieSource s = InvestingCredential.cookieSource s' →
       String.length (InvestingCredential.cookie s) = String.length (InvestingCredential.cookie s') →
       JS.slice0 32 (InvestingCredential.cookie s) = JS.slice0 32 (InvestingCredential.cookie s') →
       InvestingCredential.logLine route s p = InvestingCredential.logLine route s' p)
  ∧ (∀ s',
       XiaohongshuCredential.cookieSource s = XiaohongshuCredential.cookieSource s' →
       cookieLength (XiaohongshuCredential.cookie s) = cookieLength (XiaohongshuCredential.cookie s') →
       first32 (XiaohongshuCredential.cookie s) = first32 (XiaohongshuCredential.cookie s') →
       XiaohongshuCredential.logLine s = XiaohongshuCredential.logLine s')
  ∧ (∀ h' cfg',
       DouyinCredential.cookieSource h cfg = DouyinCredential.cookieSource h' cfg' →
       cookieLength (DouyinCredential.cookie h cfg) = cookieLength (DouyinCredential.cookie h' cfg') →
       first32 (DouyinCredential.cookie h cfg) = first32 (DouyinCredential.cookie h' cfg') →
       DouyinCredential.logLine h cfg = DouyinCredential.logLine h' cfg').
Proof.
  split_and!; try done.
  - apply cookiePrefix_bounded.
  - intros c Hc. split; [by apply cookiePrefix_is_prefix | by apply cookiePrefix_whole].
  - intros route s' p Hs Hl Hp.
    unfold InvestingCredential.logLine, credentialLine, InvestingCredential.record,
      cookiePrefix, rec_source, rec_length, rec_prefix.
    by rewrite Hs, Hl, Hp, (nonempty_length_eq _ _ Hl).
  - intros s' Hs Hl Hp.
    unfold XiaohongshuCredential.logLine, credentialLine, XiaohongshuCredential.record,
      rec_source, rec_length, rec_prefix.
    by rewrite !cookiePrefix_first32, Hs, Hl, Hp.
  - intros h' cfg' Hs Hl Hp.
    unfold DouyinCredential.logLine, DouyinCredential.record,
      rec_source, rec_length, rec_prefix.
    by rewrite !cookiePrefix_first32, Hs, Hl, Hp.
Qed.

Lemma log_holds_bounded_prefix_witness :
  let long := {| src_query := Some "0123456789abcdef0123456789abcdef-tail-one";
                 src_header := None; src_env := None |} in
  let long' := {| src_query := Some "0123456789abcdef0123456789abcdef-tail-two";
                  src_header := None; src_env := None |} in
  cookiePrefix (Some (InvestingCredential.cookie long)) ≠ InvestingCredential.cookie long
  ∧ InvestingCredential.logLine "investing/latest-news" long true
    = InvestingCredential.logLine "investing/latest-news" long' true
  ∧ XiaohongshuCredential.logLine long = XiaohongshuCredential.logLine long'
  ∧ DouyinCredential.logLine (src_query long) None = DouyinCredential.logLine (src_query long') None.
Proof.
  intros long long'.
  pose proof (log_holds_bounded_prefix long (src_query long) None)
    as (_ & _ & _ & _ & Hpre & Hinv & Hxhs & Hdouyin).
  split_and!.
  - intros Heq. apply (Hpre (InvestingCredential.cookie long)) in Heq; [|reflexivity].
    vm_compute in Heq. lia.
  - apply Hinv; reflexivity.
  - apply Hxhs; reflexivity.
  - apply Hdouyin; reflexivity.
Defined.

(** twitter/user.ts writes the decoded values themselves. *)
Example twitter_logs_decoded_values :
  TwitterCredential.logLine None None (Some "0123456789abcdef0123456789abcdef0123456789")
  = Some "twitter/user decoded query values: username=none, password=none, authToken=0123456789abcdef0123456789abcdef0123456789".
Proof. reflexivity. Qed.

(** ** Extraction *)

(** C7, as stated, fails: when [#articlePage] matches an element without
    content, the later containers are not consulted and the meta description
    is the outcome, although [.articlePage] has content. *)
Lemma extraction_skips_later_containers :
  Investing.extract emptyContainer = Some "summary"
  ∧ specExtract emptyContainer = Some "<p>text</p>"
  ∧ ¬ (∀ d, kept (Investing.extract d) = specExtract d).
Proof.
  split_and!; [done..|].
  intros H. specialize (H emptyContainer). by discriminate H.
Qed.

(** C7 (amended): the container is chosen by the first of the selectors
    [#articlePage], [.articlePage], [article] that matches any element, so
    that content matching both of the first two always yields the first; the
    outcome is the inner HTML of the first element of that container when
    that is non-empty, and the og:description content otherwise; when no
    matched element is empty this is the first non-empty result of the four
    strategies in order. *)
Theorem extraction_order (d : Investing.dom) :
  (Investing.byId d ≠ [] → Investing.container d = Investing.byId d)
  ∧ (Investing.byId d = [] → Investing.byClass d ≠ [] →
     Investing.container d = Investing.byClass d)
  ∧ (Investing.byId d = [] → Investing.byClass d = [] →
     Investing.container d = Investing.byTag d)
  ∧ (∀ html, head (Investing.container d) = Some html → JS.nonempty html = true →
     Investing.extract d = Some html)
  ∧ (JS.truthy (head (Investing.container d)) = false →
     Investing.extract d = Investing.ogDescription d)
  ∧ (noEmptyMatch d → kept (Investing.extract d) = specExtract d).
Proof.
  destruct d as [i c t og]. unfold Investing.extract, Investing.container, JS.or; simpl.
  split_and!.
  - by destruct i.
  - intros -> ?. by destruct c.
  - by intros -> ->.
  - intros html Hh Hne. rewrite Hh. simpl. by rewrite Hne.
  - by intros ->.
  - unfold noEmptyMatch, specExtract, kept; simpl.
    rewrite !Forall_cons. intros (Hi & Hc & Ht & _).
    destruct i as [|hi i]; simpl in *.
    + destruct c as [|hc c]; simpl in *.
      * destruct t as [|ht t]; simpl in *.
        -- by destruct og as [[|]|].
        -- by rewrite !(Ht ht eq_refl); simpl; rewrite !(Ht ht eq_refl).
      * by rewrite !(Hc hc eq_refl); simpl; rewrite !(Hc hc eq_refl).
    + by rewrite !(Hi hi eq_refl); simpl; rewrite !(Hi hi eq_refl).
Qed.

Lemma extraction_order_witness :
  let d := {| Investing.byId := ["<p>one</p>"]; Investing.byClass := ["<p>two</p>"];
              Investing.byTag := []; Investing.ogDescription := Some "summary" |} in
  Investing.container d = ["<p>one</p>"]
  ∧ Investing.extract d = Some "<p>one</p>"
  ∧ kept (Investing.extract d) = specExtract d.
Proof.
  intros d.
  pose proof (extraction_order d) as (H1 & _ & _ & H4 & _ & H6).
  split_and!.
  - apply H1. discriminate.
  - apply H4; reflexivity.
  - apply H6. unfold noEmptyMatch. simpl.
    repeat constructor; intros h [= <-]; reflexivity.
Defined.

(** ** Tier escalation *)

(** Unfolds the combinators of the effect monad. *)
Ltac unfold_monad :=
  unfold Investing.gotM, Investing.getPuppeteerPageM, Investing.contentM,
    Investing.waitForSelectorM, Investing.destory,
    scoped, scopedCatch, tryFinally, tryCatch, log, emit, bind, ret, throw.

(** Unfolds a handler down to the oracle calls and splits on their answers. *)
Ltac run_handler :=
  cbv beta iota zeta delta
    [emitted tiers directBlocked browserBlocked gotFailed
     Investing.fetchListHtml Investing.fetchItemProducer Investing.tryGot
     Investing.fetchWithRealBrowser Investing.gotM Investing.getPuppeteerPageM
     Investing.contentM Investing.waitForSelectorM Investing.destory
     scoped scopedCatch tryFinally tryCatch log emit bind ret throw
     trace store fst snd negb andb orb JS.truthy];
  repeat (match goal with
          | |- context [match ?x with _ => _ end] =>
              lazymatch x with
              | context [match _ with _ => _ end] => fail
              | _ => destruct x eqn:?
              end
          end; cbv beta iota zeta);
  rewrite ?andb_true_r, ?andb_false_r in *;
  repeat match goal with
         | H : ?x = _ |- context [?x] => rewrite H
         end.

Ltac split_bools :=
  repeat match goal with
         | H : _ && _ = true |- _ => apply andb_prop in H as [? ?]
         | H : _ && _ = false |- _ => apply andb_false_iff in H as [?|?]
         | H : negb _ = true |- _ => apply negb_true_iff in H
         | H : negb _ = false |- _ => apply negb_false_iff in H
         end.

Ltac trace_suffix :=
  repeat rewrite <- (assoc_L (++)); rewrite ?drop_app_length, ?drop_all; simpl.

Ltac sublist_auto :=
  repeat first [apply sublist_nil | apply sublist_skip | apply sublist_cons].

Ltac same_trace := simpl; repeat rewrite <- (assoc_L (++)); done.

(** The list page fetch appends [listEvents] to the trace. *)
Lemma fetchListHtml_extends {V} (e : Investing.env) (cookie : string) (usePuppeteer : bool)
    (service : option string) (w : world V) :
  trace (Investing.fetchListHtml e cookie usePuppeteer service w).2
  = trace w ++ listEvents e cookie usePuppeteer service.
Proof.
  destruct w as [t st].
  unfold listEvents, Investing.fetchListHtml, Investing.fetchWithRealBrowser,
    directBlocked, browserBlocked.
  unfold_monad. simpl.
  destruct (Investing.got e Investing.newsUrl cookie) as [body|]; simpl;
    [destruct (negb (JS.nonempty body) || Investing.isChallengePage body); simpl|];
    destruct usePuppeteer; simpl; try same_trace.
  all: destruct (Investing.getPuppeteerPage e Investing.newsUrl) as [pg|]; simpl;
    [|same_trace].
  all: destruct (Investing.pageContent pg) as [c|]; simpl;
    [|by destruct service; same_trace].
  all: destruct (negb (JS.nonempty c) || Investing.isChallengePage c); simpl;
    [|by destruct service; same_trace].
  all: destruct service as [svc|]; simpl; [|same_trace].
  all: destruct (JS.nonempty svc); simpl; [|same_trace].
  all: destruct (Investing.realBrowser e svc Investing.newsUrl _) as [jsonData|]; simpl;
    [destruct (JS.nonempty _)|]; same_trace.
Qed.

Lemma fetchListHtml_trace {V} (e : Investing.env) (cookie : string) (usePuppeteer : bool)
    (service : option string) (w : world V) :
  emitted (Investing.fetchListHtml e cookie usePuppeteer service) w
  = listEvents e cookie usePuppeteer service.
Proof. unfold emitted. by rewrite fetchListHtml_extends, drop_app_length. Qed.

(** An article fetch appends [articleEvents] to the trace. *)
Lemma fetchItemProducer_extends {V} (e : Investing.env) (cookie : string) (usePuppeteer : bool)
    (it : Investing.item) (w : world V) :
  trace (Investing.fetchItemProducer e cookie usePuppeteer it w).2
  = trace w ++ articleEvents e cookie usePuppeteer it.
Proof.
  destruct w as [t st].
  unfold articleEvents, gotFailed, Investing.fetchItemProducer, Investing.tryGot.
  unfold_monad. simpl.
  destruct (JS.nonempty cookie); simpl;
    [destruct (Investing.got e (Investing.link it) cookie) as [body|]; simpl;
     [destruct (JS.truthy (Investing.extract (Investing.load e body))); simpl|]|];
    destruct usePuppeteer; simpl; rewrite ?app_nil_r; try same_trace.
  all: destruct (Investing.getPuppeteerPage e (Investing.link it)) as [pg|]; simpl;
    [|same_trace].
  all: destruct (Investing.selectorAppears pg); simpl.
  all: destruct (Investing.pageContent pg) as [c|]; simpl; [|same_trace].
  all: destruct (JS.truthy (Investing.extract (Investing.load e c))); same_trace.
Qed.

Lemma fetchItemProducer_trace {V} (e : Investing.env) (cookie : string) (usePuppeteer : bool)
    (it : Investing.item) (w : world V) :
  emitted (Investing.fetchItemProducer e cookie usePuppeteer it) w
  = articleEvents e cookie usePuppeteer it.
Proof. unfold emitted. by rewrite fetchItemProducer_extends, drop_app_length. Qed.

(** The tiers the list page fetch attempts. *)
Lemma fetchListHtml_tiers {V} (e : Investing.env) (cookie : string) (usePuppeteer : bool)
    (service : option string) (w : world V) :
  tiers (emitted (Investing.fetchListHtml e cookie usePuppeteer service) w)
  = Direct ::
    (if directBlocked e cookie && usePuppeteer
     then Browser :: (if browserBlocked e && JS.truthy service then [ExternalRender] else [])
     else []).
Proof.
  rewrite fetchListHtml_trace. unfold listEvents, browserBlocked.
  destruct (directBlocked e cookie), usePuppeteer; simpl; try done.
  destruct (Investing.getPuppeteerPage e Investing.newsUrl) as [pg|]; simpl; [|done].
  destruct service as [svc|]; simpl; [|by rewrite andb_false_r].
  by destruct (Investing.pageContent pg) as [c|], (JS.nonempty svc);
    simpl; rewrite ?andb_false_r; try done; destruct (_ || _).
Qed.

(** The tiers an article fetch attempts. *)
Lemma fetchItemProducer_tiers {V} (e : Investing.env) (cookie : string) (usePuppeteer : bool)
    (it : Investing.item) (w : world V) :
  tiers (emitted (Investing.fetchItemProducer e cookie usePuppeteer it) w)
  = ((if JS.nonempty cookie then [Direct] else [])
     ++ (if gotFailed e cookie it && usePuppeteer then [Browser] else []))%list.
Proof.
  rewrite fetchItemProducer_trace. unfold articleEvents, tiers. rewrite omap_app.
  f_equal.
  - destruct (JS.nonempty cookie); [|done].
    by destruct (Investing.got e (Investing.link it) cookie).
  - destruct (gotFailed e cookie it && usePuppeteer); [|done]. simpl.
    destruct (Investing.getPuppeteerPage e (Investing.link it)) as [pg|]; [|done].
    simpl. rewrite omap_app. by destruct (Investing.pageContent pg).
Qed.

(** On every path of the two investing fetches the browser session that was
    handed out is destroyed. *)
Lemma investing_sessions_released {V} (e : Investing.env) (cookie : string)
    (usePuppeteer : bool) (service : option string) (it : Investing.item) (w : world V) :
  liveSessions (emitted (Investing.fetchListHtml e cookie usePuppeteer service) w) [] = []
  ∧ liveSessions (emitted (Investing.fetchItemProducer e cookie usePuppeteer it) w) [] = [].
Proof.
  rewrite fetchListHtml_trace, fetchItemProducer_trace.
  unfold listEvents, articleEvents. split.
  - destruct (directBlocked e cookie && usePuppeteer); [|done]. simpl.
    destruct (Investing.getPuppeteerPage e Investing.newsUrl); [|done]. simpl.
    destruct service as [svc|]; [|done]. by destruct (browserBlocked e && JS.nonempty svc).
  - destruct (JS.nonempty cookie), (Investing.got e (Investing.link it) cookie),
      (gotFailed e cookie it && usePuppeteer); simpl; try done.
    all: destruct (Investing.getPuppeteerPage e (Investing.link it)) as [pg|]; simpl; try done.
    all: destruct (Investing.pageContent pg); simpl; by rewrite decide_True.
Qed.

(** C4, as stated, fails on an article: a challenge page from which a
    description is extracted counts as a success of the direct tier, and the
    browser is not attempted although it is permitted; and without a cookie
    the browser is attempted although the direct tier never was. *)
Lemma article_escalation_differs :
  articleBlocked challengeWithSummary "sid=1" oneItem = true
  ∧ tiers (emitted (Investing.fetchItemProducer challengeWithSummary "sid=1" true oneItem)
             (World [] (∅ : gmap string Investing.item))) = [Direct]
  ∧ tiers (emitted (Investing.fetchItemProducer challengeWithSummary "" true oneItem)
             (World [] (∅ : gmap string Investing.item))) = [Browser]
  ∧ ¬ (∀ (e : Investing.env) (cookie : string) (usePuppeteer : bool) (it : Investing.item)
         (w : world Investing.item),
         Browser ∈ tiers (emitted (Investing.fetchItemProducer e cookie usePuppeteer it) w)
         ↔ articleBlocked e cookie it = true ∧ usePuppeteer = true).
Proof.
  split_and!; [reflexivity..|].
  intros H. specialize (H challengeWithSummary "sid=1" true oneItem (World [] ∅)).
  destruct H as [_ H]. specialize (H (conj eq_refl eq_refl)).
  vm_compute in H. set_solver.
Qed.

(** C4 (amended): on the list page the browser tier is attempted exactly
    when the direct tier failed or was blocked and puppeteer is enabled, the
    external render tier exactly when moreover the browser's content is empty
    or blocked and the service is configured. On an article the direct tier
    is attempted exactly when there is a cookie to send, and the browser tier
    exactly when puppeteer is enabled and the direct tier gave no content:
    it was skipped for lack of a cookie, or its request threw, or nothing was
    extracted from its body (no challenge signature is tested there); the
    external render tier is never attempted for an article. The tiers are
    attempted in their fixed order, each at most once. *)
Theorem tier_escalation {V} (e : Investing.env) (cookie : string) (usePuppeteer : bool)
    (service : option string) (it : Investing.item) (w : world V) :
  let page := tiers (emitted (Investing.fetchListHtml e cookie usePuppeteer service) w) in
  let article := tiers (emitted (Investing.fetchItemProducer e cookie usePuppeteer it) w) in
  (Browser ∈ page ↔ directBlocked e cookie = true ∧ usePuppeteer = true)
  ∧ (ExternalRender ∈ page ↔
       Browser ∈ page ∧ browserBlocked e = true ∧ JS.truthy service = true)
  ∧ sublist page [Direct; Browser; ExternalRender]
  ∧ (Browser ∈ article ↔ gotFailed e cookie it = true ∧ usePuppeteer = true)
  ∧ sublist article [Direct; Browser]
  ∧ (Direct ∈ article ↔ JS.nonempty cookie = true)
  ∧ (gotFailed e cookie it = true
     ↔ JS.nonempty cookie = false
       ∨ Investing.got e (Investing.link it) cookie = None
       ∨ ∃ body, Investing.got e (Investing.link it) cookie = Some body
                 ∧ JS.truthy (Investing.extract (Investing.load e body)) = false).
Proof.
  simpl. rewrite fetchListHtml_tiers, fetchItemProducer_tiers.
  assert (gotFailed e cookie it = true
     ↔ JS.nonempty cookie = false
       ∨ Investing.got e (Investing.link it) cookie = None
       ∨ ∃ body, Investing.got e (Investing.link it) cookie = Some body
                 ∧ JS.truthy (Investing.extract (Investing.load e body)) = false) as Hfailed.
  { unfold gotFailed. destruct (JS.nonempty cookie); simpl; [|split; by auto].
    destruct (Investing.got e (Investing.link it) cookie) as [body|]; [|split; by auto].
    rewrite negb_true_iff. split.
    - intros Hx. right. right. by exists body.
    - intros [?|[?|(body' & [= <-] & Hx)]]; done. }
  split_and!; [..|exact Hfailed]; clear Hfailed.
  all: destruct (directBlocked e cookie), usePuppeteer, (browserBlocked e),
    (JS.truthy service), (gotFailed e cookie it), (JS.nonempty cookie); simpl.
  all: try sublist_auto.
  all: rewrite ?elem_of_cons, ?elem_of_nil; intuition congruence.
Qed.

(** A blocked direct tier with puppeteer enabled, a blocked browser page and
    a configured service: all three tiers, in order. *)
Example all_tiers :
  let e := {| Investing.got := λ _ _, Some "<title>Just a moment...</title>";
              Investing.load := λ _, Investing.Build_dom [] [] [] None;
              Investing.getPuppeteerPage := λ _, Some (Investing.Build_page false (Some ""));
              Investing.parseString := λ _, None;
              Investing.resolveUrl := Some;
              Investing.parseDate := id;
              Investing.parseList := λ _, Some [];
              Investing.realBrowser := λ _ _ _, Some (Some ["<article>x</article>"]) |} in
  Investing.fetchListHtml e "" true (Some "http://render") (World [] (∅ : gmap string unit))
  = (Ok "<article>x</article>",
     World [Got Investing.newsUrl "";
            Log "info" "investing/most-popular-news using puppeteer for list page";
            Launch Investing.newsUrl; Open Investing.newsUrl; Close Investing.newsUrl;
            Log "info" "investing/most-popular-news using real-browser service for list page";
            Render "http://render" Investing.newsUrl ".largeTitle, #leftColumn, article"] ∅).
Proof. reflexivity. Qed.

(** ** An external render tier without fragments *)

(** C6, as stated, fails: with every tier blocked and an empty fragment
    list from the render service, the list fetch returns the challenge page
    of the browser tier as its result and the handler returns a feed without
    items; no error reaches the caller. *)
Lemma empty_fragments_no_error :
  (Investing.fetchListHtml blockedEverywhere "" true (Some "http://render")
     (World [] (∅ : gmap string Investing.item))).1
  = Ok "<title>Just a moment...</title>"
  ∧ (Investing.mostPopularNews blockedEverywhere withService (World [] ∅)).1
    = Ok {| Investing.data_title := "Investing.com 最热资讯";
            Investing.data_link := Investing.newsUrl;
            Investing.data_item := [] |}
  ∧ Render "http://render" Investing.newsUrl ".largeTitle, #leftColumn, article"
    ∈ (Investing.mostPopularNews blockedEverywhere withService (World [] ∅)).2.(trace).
Proof. split_and!; [reflexivity..|]. vm_compute. set_solver. Qed.

(** C6 (amended): when the external render tier is attempted and its
    response holds an empty fragment list, the list fetch ends normally
    with the content the browser tier read, which is empty or a challenge
    page, and the handler goes on to parse that content: it returns a feed
    with the entries found in it (possibly none), cut to the limit, and
    raises no error for the exhausted tiers. *)
Theorem empty_fragments_fall_back (e : Investing.env) (r : Investing.request) (svc : string)
    (w0 w : world Investing.item) :
  Investing.service r = Some svc →
  Investing.realBrowser e svc Investing.newsUrl ".largeTitle, #leftColumn, article"
    = Some (Some []) →
  ExternalRender ∈ tiers (emitted (Investing.fetchListHtml e (Investing.cookieOf r)
                                     (Investing.usePuppeteerOf r) (Investing.service r)) w0) →
  ∃ pg c,
    Investing.getPuppeteerPage e Investing.newsUrl = Some pg
    ∧ Investing.pageContent pg = Some c
    ∧ negb (JS.nonempty c) || Investing.isChallengePage c = true
    ∧ (Investing.fetchListHtml e (Investing.cookieOf r) (Investing.usePuppeteerOf r)
         (Investing.service r) w).1 = Ok c
    ∧ (Investing.mostPopularNews e r w).1
      = match Investing.parseList e c with
        | Some listItems =>
            Ok {| Investing.data_title := "Investing.com 最热资讯";
                  Investing.data_link := Investing.newsUrl;
                  Investing.data_item := JS.sliceTo (Investing.limit r) listItems |}
        | None => Throw (Rejected "new URL")
        end.
Proof.
  intros Hsvc Hrender. rewrite fetchListHtml_tiers.
  destruct (directBlocked e (Investing.cookieOf r)) eqn:Hd,
    (Investing.usePuppeteerOf r) eqn:Hp, (browserBlocked e) eqn:Hb,
    (JS.truthy (Investing.service r)) eqn:Hs; simpl;
    rewrite ?elem_of_cons, ?elem_of_nil; try (intros H; exfalso; intuition congruence).
  intros _. unfold browserBlocked in Hb.
  destruct (Investing.getPuppeteerPage e Investing.newsUrl) as [pg|] eqn:Hpg; [|done].
  destruct (Investing.pageContent pg) as [c|] eqn:Hc; [|done].
  exists pg, c. split_and!; try done.
  - rewrite Hsvc in *. simpl in Hs.
    unfold Investing.fetchListHtml, Investing.fetchWithRealBrowser, directBlocked in *.
    unfold_monad. simpl.
    destruct (Investing.got e Investing.newsUrl (Investing.cookieOf r)) as [body|];
      simpl; rewrite ?Hd, ?Hp; simpl; rewrite Hpg; simpl; rewrite Hc; simpl;
      rewrite Hb, Hs; simpl; by rewrite Hrender.
  - unfold Investing.mostPopularNews, Investing.fetchListHtml,
      Investing.fetchWithRealBrowser, directBlocked in *.
    rewrite Hsvc in *. simpl in Hs.
    unfold_monad. simpl.
    destruct (Investing.got e Investing.newsUrl (Investing.cookieOf r)) as [body|];
      simpl; rewrite ?Hd, ?Hp; simpl; rewrite Hpg; simpl; rewrite Hc; simpl;
      rewrite Hb, Hs; simpl; rewrite Hrender; simpl;
      destruct (Investing.parseList e c); simpl; try done;
      rewrite ?Hp, ?andb_false_r; done.
Qed.

Lemma empty_fragments_fall_back_witness :
  (Investing.mostPopularNews blockedEverywhere withService (World [] ∅)).1
  = Ok {| Investing.data_title := "Investing.com 最热资讯";
          Investing.data_link := Investing.newsUrl;
          Investing.data_item := [] |}.
Proof.
  destruct (empty_fragments_fall_back blockedEverywhere withService "http://render"
              (World [] ∅) (World [] ∅)) as (pg & c & Hpg & Hc & _ & _ & Hfeed).
  - reflexivity.
  - reflexivity.
  - vm_compute. set_solver.
  - injection Hpg as <-. injection Hc as <-. exact Hfeed.
Defined.

(** ** Browser sessions *)

(** user.ts: an exception between [puppeteer()] and [browser.close()] leaves
    the browser open. *)
Lemma userProducer_leaks (e : Douyin.env) (cookie : option string) (uid : string)
    (w : world Douyin.postData) :
  Douyin.puppeteer e = true →
  Douyin.newPage e = false ∨ Douyin.setRequestInterception e = false ∨ Douyin.goto e = None →
  (∃ err, (Douyin.userProducer e cookie uid w).1 = Throw err)
  ∧ liveSessions (emitted (Douyin.userProducer e cookie uid) w) []
    = ["https://www.douyin.com/user/" +:+ uid].
Proof.
  intros Hp Hfail. destruct w as [t st].
  unfold emitted, Douyin.userProducer, Douyin.call. unfold_monad. simpl. rewrite Hp. simpl.
  destruct (Douyin.newPage e); simpl; [|split; [by eauto | by trace_suffix]].
  destruct (Douyin.setRequestInterception e); simpl; [|split; [by eauto | by trace_suffix]].
  destruct Hfail as [?|[?|Hgoto]]; try done. rewrite Hgoto.
  destruct (JS.truthy cookie); simpl; [destruct (Douyin.setCookies e); simpl|];
    (split; [by eauto | by trace_suffix]).
Qed.

(** C5, on douyin/user.ts: when [page.goto] throws, the handler fails with
    that exception and the browser it launched is never closed. *)
Theorem douyin_browser_left_open :
  let out := Douyin.user navigationTimeout someUid None None (World [] ∅) in
  out.1 = Throw (Rejected "page.goto")
  ∧ trace out.2 = [Log "info" "Douyin cookie source=none, length=0, prefix=none";
                   Launch ("https://www.douyin.com/user/" +:+ someUid);
                   Open ("https://www.douyin.com/user/" +:+ someUid);
                   Log "http" ("Requesting https://www.douyin.com/user/" +:+ someUid)]
  ∧ liveSessions (trace out.2) [] = ["https://www.douyin.com/user/" +:+ someUid].
Proof. vm_compute. done. Qed.

(** ** The uid check of the douyin handlers *)

Lemma quiet_ret {V A} (a : A) : quiet (ret a : M V A).
Proof. by intros w msg. Qed.

Lemma quiet_throw_Error {V A} (m : string) : quiet (throw (Error m) : M V A).
Proof. by intros w msg. Qed.

Lemma quiet_throw_Rejected {V A} (m : string) : quiet (throw (Rejected m) : M V A).
Proof. by intros w msg. Qed.

Lemma quiet_emit {V} (ev : event) : quiet (emit ev : M V unit).
Proof. by intros w msg. Qed.

Lemma quiet_bind {V A B} (m : M V A) (k : A → M V B) :
  quiet m → (∀ a, quiet (k a)) → quiet (bind m k).
Proof.
  intros Hm Hk w msg. unfold bind. specialize (Hm w msg).
  destruct (m w) as [[a|err] w']; simpl in *; [apply Hk | intros [= ->]; by apply Hm].
Qed.

Lemma quiet_tryCatch {V A} (m : M V A) (h : error → M V A) :
  (∀ err, quiet (h err)) → quiet (tryCatch m h).
Proof.
  intros Hh w msg. unfold tryCatch.
  destruct (m w) as [[a|err] w']; simpl; [done | apply Hh].
Qed.

Lemma quiet_tryGet {V} (key : string) (producer : M V V) :
  quiet producer → quiet (tryGet key producer).
Proof.
  intros Hp w msg. unfold tryGet. specialize (Hp w msg).
  destruct (store w !! key); [done|].
  by destruct (producer w) as [[a|err] w'].
Qed.

Ltac quiet_step :=
  first [ apply quiet_ret | apply quiet_throw_Error | apply quiet_throw_Rejected
        | apply quiet_emit | apply quiet_tryCatch | apply quiet_tryGet
        | apply quiet_bind | progress intros
        | match goal with
          | |- quiet (match ?x with _ => _ end) => destruct x
          end ].

Lemma userProducer_quiet (e : Douyin.env) (cookie : option string) (uid : string) :
  quiet (Douyin.userProducer e cookie uid).
Proof. unfold Douyin.userProducer, Douyin.call, log. repeat quiet_step. Qed.

Lemma userWebProducer_quiet (e : Douyin.env) (cookie : option string) (uid : string) :
  quiet (Douyin.userWebProducer e cookie uid).
Proof. unfold Douyin.userWebProducer, log. repeat quiet_step. Qed.

(** C10: both handlers raise [InvalidParameterError] exactly when the uid
    does not start with "MS4wLjABAAAA", and then nothing was logged,
    requested or cached: the world is the one the handler was entered
    with. *)
Theorem douyin_uid_check (e : Douyin.env) (uid : string) (headerCookie config : option string)
    (w : world Douyin.postData) :
  (JS.startsWith "MS4wLjABAAAA" uid = false →
     Douyin.user e uid headerCookie config w
       = (Throw (InvalidParameterError Douyin.invalidUid), w)
     ∧ Douyin.userWeb e uid headerCookie config w
       = (Throw (InvalidParameterError Douyin.invalidUid), w))
  ∧ (JS.startsWith "MS4wLjABAAAA" uid = true →
     ∀ msg, (Douyin.user e uid headerCookie config w).1 ≠ Throw (InvalidParameterError msg)
            ∧ (Douyin.userWeb e uid headerCookie config w).1
              ≠ Throw (InvalidParameterError msg)).
Proof.
  unfold Douyin.user, Douyin.userWeb. split; intros Huid; rewrite Huid; simpl; [done|].
  intros msg. split.
  - revert w msg. change (quiet ?m) with (quiet m).
    unfold log. repeat first [apply userProducer_quiet | quiet_step].
  - revert w msg. change (quiet ?m) with (quiet m).
    unfold log. repeat first [apply userWebProducer_quiet | quiet_step].
Qed.

Lemma douyin_uid_check_witness :
  Douyin.user navigationTimeout "12345" None None (World [] ∅)
    = (Throw (InvalidParameterError Douyin.invalidUid), World [] ∅)
  ∧ (Douyin.user navigationTimeout someUid None None (World [] ∅)).1
    ≠ Throw (InvalidParameterError Douyin.invalidUid).
Proof.
  split.
  - apply (douyin_uid_check navigationTimeout "12345" None None (World [] ∅)). reflexivity.
  - apply (douyin_uid_check navigationTimeout someUid None None (World [] ∅)). reflexivity.
Defined.

(** ** The batch runner *)

Section Batch.
Context {V A B : Type} (f : A → M V B).
Context (I : world V → Prop) (R : A → B → Prop).
Hypothesis f_ok : ∀ x w, I w → ∃ y w', f x w = (Ok y, w') ∧ I w' ∧ R x y.

Lemma forPush_ok (xs : list A) (out : list B) (w : world V) :
  I w → ∃ ys w', forPush f xs out w = (Ok (out ++ ys), w') ∧ I w' ∧ Forall2 R xs ys.
Proof.
  revert out w. induction xs as [|x xs IH]; intros out w Hw; simpl.
  - exists [], w. by rewrite app_nil_r.
  - unfold bind. destruct (f_ok x w Hw) as (y & w1 & -> & Hw1 & HR).
    destruct (IH (out ++ [y]) w1 Hw1) as (ys & w2 & -> & Hw2 & HRs).
    exists (y :: ys), w2. rewrite <- app_assoc. by repeat constructor.
Qed.

End Batch.

(** The serial loop calls the worker for one element after the other. *)
Lemma forPush_oneAtATime {V A B} (f : A → M V B) (xs : list A) (out res : list B)
    (w w' : world V) :
  forPush f xs out w = (Ok res, w') →
  ∃ ys, res = out ++ ys ∧ oneAtATime f xs w ys w'.
Proof.
  revert out w. induction xs as [|x xs IH]; intros out w; simpl.
  - intros [= <- <-]. exists []. by rewrite app_nil_r.
  - unfold bind. destruct (f x w) as [[y|err] w1] eqn:Hf; [|done].
    intros (ys & -> & Hys)%IH. exists (y :: ys). rewrite <- app_assoc. eauto.
Qed.

Section Concurrent.
Context {V A : Type} (key : A → string) (start : A → M V (M V V)).
Context (restOf : A → M V V) (val : A → V) (req : string → list event) (P : event → Prop).
Hypothesis start_ok :
  ∀ x w, start x w = (Ok (restOf x), World (trace w ++ req (key x)) (store w)).
Hypothesis rest_ok :
  ∀ x w, ∃ lg, restOf x w = (Ok (val x), World (trace w ++ lg) (store w)) ∧ Forall P lg.

Lemma awaited_mono (fl fl' : gmap string V) (hs : list (pending V)) (target : list V) :
  fl ⊆ fl' → awaited restOf val fl hs target → awaited restOf val fl' hs target.
Proof.
  intros Hsub Hhs. eapply Forall2_impl; [exact Hhs|]. intros [v|k rest] o; [done|].
  intros [Hk Hx]. split; [|done]. by eapply lookup_weaken.
Qed.

Lemma awaited_resolve (fl : gmap string V) (hs : list (pending V)) (target : list V)
    (k : string) (v : V) :
  fl !! k = Some v → awaited restOf val fl hs target →
  awaited restOf val fl (resolve k v hs) target.
Proof.
  intros Hk Hhs. unfold awaited, resolve. apply Forall2_fmap_l.
  eapply Forall2_impl; [exact Hhs|]. intros [u|k' rest] o; [done|].
  simpl. intros [Hk' Hx]. destruct (decide (k' = k)) as [->|]; [congruence | done].
Qed.

Lemma dispatch_awaited (xs : list A) (inFlight : gmap string (M V V)) (fl : gmap string V)
    (w : world V) :
  (∀ k, inFlight !! k = None → fl !! k = None) →
  (∀ k rest, inFlight !! k = Some rest → ∃ x, rest = restOf x ∧ fl !! k = Some (val x)) →
  ∃ hs fl',
    dispatch key start xs inFlight w
    = (Ok hs, World (trace w ++ concat (map req (asked key val (store w) fl xs))) (store w))
    ∧ fl ⊆ fl' ∧ awaited restOf val fl' hs (outcomes key val (store w) fl xs).
Proof.
  revert inFlight fl w. induction xs as [|x xs IH]; intros inFlight fl w Hnone Hsome; simpl.
  - exists [], fl. destruct w as [t st]. simpl. rewrite app_nil_r. split_and!; try done.
    constructor.
  - unfold bind at 1. unfold tryGetStart.
    destruct (store w !! key x) as [v|] eqn:Hst.
    + destruct (IH inFlight fl w Hnone Hsome) as (hs & fl' & Hrun & Hsub & Hhs).
      simpl. unfold bind. rewrite Hrun. exists (Stored v :: hs), fl'.
      split_and!; try done. by constructor.
    + destruct (inFlight !! key x) as [rest|] eqn:Hin.
      * destruct (Hsome _ _ Hin) as (x0 & -> & Hfl). rewrite Hfl.
        destruct (IH (<[key x := restOf x0]> inFlight) fl w) as (hs & fl' & Hrun & Hsub & Hhs).
        { by rewrite insert_id. }
        { by rewrite insert_id. }
        simpl. unfold bind. rewrite Hrun. exists (Awaits (key x) (restOf x0) :: hs), fl'.
        split_and!; try done. constructor; [|done].
        split; [by eapply lookup_weaken | eauto].
      * rewrite (Hnone _ Hin). unfold bind, tryCatch, ret. rewrite start_ok. simpl.
        set (w1 := World (trace w ++ req (key x)) (store w)).
        destruct (IH (<[key x := restOf x]> inFlight) (<[key x := val x]> fl) w1)
          as (hs & fl' & Hrun & Hsub & Hhs).
        { intros k. destruct (decide (key x = k)) as [<-|Hne].
          - by rewrite lookup_insert_eq.
          - rewrite !lookup_insert_ne by done. apply Hnone. }
        { intros k rest. destruct (decide (key x = k)) as [<-|Hne].
          - rewrite !lookup_insert_eq. intros [= <-]. eauto.
          - rewrite !lookup_insert_ne by done. apply Hsome. }
        unfold bind in Hrun. rewrite Hrun. simpl.
        exists (Awaits (key x) (restOf x) :: hs), fl'. split_and!.
        -- by rewrite <- (assoc_L (++)).
        -- etrans; [|exact Hsub]. apply insert_subseteq. by apply Hnone.
        -- constructor; [|done]. split; [|eauto].
           eapply lookup_weaken; [|exact Hsub]. by rewrite lookup_insert_eq.
Qed.

Lemma settle_awaited (fl : gmap string V) (target : list V) (sched : list nat)
    (hs : list (pending V)) (w : world V) :
  awaited restOf val fl hs target →
  ∃ hs' lg st',
    settle hs sched w = (Ok hs', World (trace w ++ lg) st')
    ∧ awaited restOf val fl hs' target ∧ Forall P lg.
Proof.
  revert hs w. induction sched as [|i sched IH]; intros hs w Hhs; simpl.
  - exists hs, [], (store w). destruct w as [t st]. simpl. rewrite app_nil_r.
    split_and!; try done.
  - destruct (hs !! i) as [[v|k rest]|] eqn:Hi; try by apply IH.
    destruct (Forall2_lookup_l _ _ _ _ _ Hhs Hi) as (o & _ & Hk & x & -> & Hx).
    destruct (rest_ok x w) as (lg & Hrun & Hlg).
    unfold bind. rewrite Hrun, Hx. unfold cacheSet. simpl.
    destruct (IH (resolve k o hs) (World (trace w ++ lg) (<[k := o]> (store w))))
      as (hs' & lg' & st' & Hrun' & Hhs' & Hlg').
    { by apply awaited_resolve. }
    unfold bind in Hrun'. rewrite Hrun'. simpl.
    exists hs', (lg ++ lg'), st'. rewrite (assoc_L (++)). split_and!; try done.
    by apply Forall_app.
Qed.

Lemma finish_awaited (fl settled : gmap string V) (hs : list (pending V)) (target : list V)
    (w : world V) :
  awaited restOf val fl hs target → settled ⊆ fl →
  ∃ lg st', finish hs settled w = (Ok target, World (trace w ++ lg) st') ∧ Forall P lg.
Proof.
  intros Hhs. revert settled w.
  induction Hhs as [|h o hs target Hh _ IH]; intros settled w Hsub; simpl.
  - exists [], (store w). destruct w as [t st]. simpl. by rewrite app_nil_r.
  - destruct h as [v|k rest].
    + subst o. destruct (IH settled w Hsub) as (lg & st' & Hrun & Hlg).
      unfold bind. rewrite Hrun. by exists lg, st'.
    + destruct Hh as (Hk & x & -> & Hx).
      destruct (settled !! k) as [v|] eqn:Hs.
      * assert (v = o) as -> by (eapply lookup_weaken in Hs; [|exact Hsub]; congruence).
        destruct (IH settled w Hsub) as (lg & st' & Hrun & Hlg).
        unfold bind. rewrite Hrun. by exists lg, st'.
      * destruct (rest_ok x w) as (lg & Hrun & Hlg).
        unfold bind. rewrite Hrun, Hx. unfold cacheSet. simpl.
        destruct (IH (<[k := o]> settled)
                    (World (trace w ++ lg) (<[k := o]> (store w))))
          as (lg' & st' & Hrun' & Hlg').
        { apply insert_subseteq_l; done. }
        unfold bind in Hrun'. rewrite Hrun'. simpl.
        exists (lg ++ lg'), st'. rewrite (assoc_L (++)). split; [done|].
        by apply Forall_app.
Qed.

(** A concurrent batch: the producers are started in the order of the
    input, then they return in whatever order; the results are those of
    [outcomes]. *)
Lemma promiseAll_outcomes (xs : list A) (sched : list nat) (w : world V) :
  ∃ lg st',
    promiseAll key start xs sched w
    = (Ok (outcomes key val (store w) ∅ xs),
       World (trace w ++ concat (map req (asked key val (store w) ∅ xs)) ++ lg) st')
    ∧ Forall P lg.
Proof.
  unfold promiseAll.
  destruct (dispatch_awaited xs ∅ ∅ w) as (hs & fl & Hd & _ & Hhs); [done|done|].
  unfold bind at 1. rewrite Hd.
  set (w1 := World (trace w ++ concat (map req (asked key val (store w) ∅ xs))) (store w)).
  destruct (settle_awaited fl _ sched hs w1 Hhs) as (hs' & lg & st1 & Hs & Hhs' & Hlg).
  unfold bind. rewrite Hs.
  destruct (finish_awaited fl ∅ hs' _ (World (trace w1 ++ lg) st1) Hhs')
    as (lg' & st2 & Hf & Hlg'); [apply map_empty_subseteq|].
  rewrite Hf. exists (lg ++ lg'), st2. simpl. rewrite <- !(assoc_L (++)).
  split; [done | by apply Forall_app].
Qed.

Lemma outcomes_length (st fl : gmap string V) (xs : list A) :
  length (outcomes key val st fl xs) = length xs.
Proof.
  revert fl. induction xs as [|x xs IH]; intros fl; simpl; [done|].
  repeat case_match; simpl; by rewrite IH.
Qed.

(** The value at the position of [x]: the entry of the cache, else the
    value the producer returns for the first element with the key of [x]. *)
Lemma outcomes_first (st fl : gmap string V) (xs : list A) :
  outcomes key val st fl xs
  = map (λ x, match st !! key x with
              | Some v => v
              | None =>
                  match fl !! key x with
                  | Some v => v
                  | None => from_option val (val x) (head (filter (λ y, key y = key x) xs))
                  end
              end) xs.
Proof.
  revert fl. induction xs as [|x xs IH]; intros fl; simpl; [done|].
  destruct (st !! key x) as [v|] eqn:Hst; [|destruct (fl !! key x) as [v|] eqn:Hfl].
  - f_equal. rewrite IH. apply map_ext. intros y.
    destruct (st !! key y) eqn:Hy; [done|]. destruct (fl !! key y); [done|].
    rewrite filter_cons_False; [done|]. intros Heq. congruence.
  - f_equal. rewrite IH. apply map_ext. intros y.
    destruct (st !! key y) eqn:Hy; [done|]. destruct (fl !! key y) eqn:Hy'; [done|].
    rewrite filter_cons_False; [done|]. intros Heq. congruence.
  - rewrite filter_cons_True by done. simpl. f_equal. rewrite IH. apply map_ext. intros y.
    destruct (st !! key y) eqn:Hy; [done|].
    destruct (decide (key x = key y)) as [Heq|Hne].
    + rewrite <- Heq, lookup_insert_eq, Hfl. by rewrite filter_cons_True.
    + rewrite lookup_insert_ne by done. destruct (fl !! key y); [done|].
      by rewrite filter_cons_False.
Qed.

Lemma asked_uncached (st fl : gmap string V) (seen : list string) (xs : list A) :
  (∀ k, k ∈ seen ↔ is_Some (fl !! k)) →
  asked key val st fl xs = uncached st seen (map key xs).
Proof.
  revert fl seen. induction xs as [|x xs IH]; intros fl seen Hseen; simpl; [done|].
  destruct (st !! key x) as [v|] eqn:Hst.
  - rewrite decide_True by (left; eauto). by apply IH.
  - destruct (fl !! key x) as [v|] eqn:Hfl.
    + rewrite decide_True by (right; apply Hseen; eauto). by apply IH.
    + rewrite decide_False.
      * f_equal. apply IH. intros k. rewrite elem_of_cons, Hseen.
        destruct (decide (key x = k)) as [<-|Hne].
        -- rewrite lookup_insert_eq. split; eauto.
        -- rewrite lookup_insert_ne by done. split; [intros [?|?]; [congruence|done] | eauto].
      * intros [[? ?]|Hin%Hseen]; [congruence|]. rewrite Hfl in Hin. by destruct Hin.
Qed.

End Concurrent.

Lemma uncached_elem_of {V} (st : gmap string V) (seen ks : list string) (k : string) :
  k ∈ uncached st seen ks → k ∈ ks ∧ st !! k = None ∧ k ∉ seen.
Proof.
  revert seen. induction ks as [|k' ks IH]; intros seen; simpl; [by intros ?%elem_of_nil|].
  destruct (decide _) as [Hskip|Hnew].
  - intros (? & ? & ?)%IH. split_and!; try done. by right.
  - intros [->|(? & ? & Hn)%IH]%elem_of_cons.
    + split_and!; [by left | | tauto].
      destruct (st !! k') eqn:Hk; [|done]. exfalso. apply Hnew. left. eauto.
    + split_and!; [by right | done |]. intros ?. apply Hn. by right.
Qed.

(** The split of the producer at its first suspension is the producer. *)
Lemma fetchItemStart_whole {V} (e : Investing.env) (cookie : string) (usePuppeteer : bool)
    (it : Investing.item) (w : world V) :
  (let* rest := Investing.fetchItemStart e cookie usePuppeteer it in rest) w
  = Investing.fetchItemProducer e cookie usePuppeteer it w.
Proof.
  unfold Investing.fetchItemStart, Investing.tryGotStart, Investing.fetchItemProducer,
    Investing.tryGot, Investing.afterTryGot, Investing.gotM.
  destruct (negb (JS.nonempty cookie)); [done|].
  unfold bind, tryCatch, emit, ret, throw. simpl.
  by destruct (Investing.got e (Investing.link it) cookie).
Qed.

Lemma settle_stored {V} (v : V) (sched : list nat) (w : world V) :
  settle [Stored v] sched w = (Ok [Stored v], w).
Proof. induction sched as [|[|i] sched IH]; simpl; auto. Qed.

(** A batch of one call is the call of [tryGet]. *)
Lemma promiseAll_one {V A} (key : A → string) (start : A → M V (M V V)) (x : A)
    (sched : list nat) (w : world V) :
  promiseAll key start [x] sched w
  = (let* v := tryGet (key x) (let* rest := start x in rest) in ret [v]) w.
Proof.
  unfold promiseAll, tryGet. simpl.
  unfold tryGetStart, bind, tryCatch, ret, throw. cbv beta.
  destruct (store w !! key x) as [v|] eqn:Hst.
  - by rewrite settle_stored.
  - rewrite lookup_empty.
    destruct (start x w) as [[rest|err] w1].
    + induction sched as [|[|i] sched IH]; simpl.
      * unfold bind, cacheSet, ret. rewrite lookup_empty.
        by destruct (rest w1) as [[v|err] w2].
      * unfold bind. destruct (rest w1) as [[v|err] w2]; [|done].
        unfold cacheSet. simpl. rewrite decide_True by done.
        by rewrite settle_stored.
      * apply IH.
    + induction sched as [|[|i] sched IH]; simpl.
      * unfold bind, ret, throw. by rewrite lookup_empty.
      * done.
      * apply IH.
Qed.

Lemma fetchItemStart_ok (e : Investing.env) (cookie : string) (it : Investing.item)
    (w : world Investing.item) :
  Investing.fetchItemStart e cookie false it w
  = (Ok (directRest e cookie it),
     World (trace w ++ (if JS.nonempty cookie then [Got (Investing.link it) cookie] else []))
       (store w)).
Proof.
  unfold directRest, Investing.fetchItemStart, Investing.tryGotStart.
  destruct (JS.nonempty cookie); simpl; [done|].
  destruct w as [t st]. unfold bind, ret. simpl. by rewrite app_nil_r.
Qed.

Lemma directRest_ok (e : Investing.env) (cookie : string) (it : Investing.item)
    (w : world Investing.item) :
  ∃ lg, directRest e cookie it w = (Ok (directOutcome e cookie it), World (trace w ++ lg) (store w))
        ∧ Forall isWarning lg.
Proof.
  unfold directRest, directOutcome, Investing.fetchItemStart, Investing.tryGotStart,
    Investing.afterTryGot.
  destruct w as [t st].
  destruct (JS.nonempty cookie); simpl.
  - unfold bind, tryCatch, ret, throw, log, emit. simpl.
    destruct (Investing.got e (Investing.link it) cookie) as [body|]; simpl.
    + destruct (JS.truthy _); simpl; exists []; by rewrite app_nil_r.
    + eexists [_]. split; [done|]. constructor; [by eexists|constructor].
  - exists []. by rewrite app_nil_r.
Qed.

Ltac split_matches :=
  repeat (match goal with
          | |- context [match ?x with _ => _ end] =>
              lazymatch x with
              | context [match _ with _ => _ end] => fail
              | _ => destruct x eqn:?
              end
          end; simpl).

(** The producer of an article never throws; it returns the item it was
    given, with at most the description changed, and leaves the cache alone. *)
Lemma fetchItemProducer_ok {V} (e : Investing.env) (cookie : string) (usePuppeteer : bool)
    (it : Investing.item) (w : world V) :
  ∃ o w', Investing.fetchItemProducer e cookie usePuppeteer it w = (Ok o, w')
          ∧ (o = it ∨ ∃ html, o = Investing.setDescription html it)
          ∧ store w' = store w.
Proof.
  destruct w as [t st].
  unfold Investing.fetchItemProducer, Investing.tryGot. unfold_monad. simpl.
  split_matches; simplify_eq/=; eexists _, _; split_and!; eauto.
Qed.

Lemma fetchItem_ok (e : Investing.env) (r : Investing.request) (it : Investing.item)
    (w : world Investing.item) :
  cacheKeyed w →
  ∃ o w', Investing.fetchItem e r it w = (Ok o, w') ∧ cacheKeyed w'
          ∧ Investing.link o = Investing.link it.
Proof.
  intros Hw. unfold Investing.fetchItem, tryGet.
  destruct (store w !! Investing.link it) as [v|] eqn:Hv.
  - exists v, w. split_and!; try done. by apply Hw.
  - destruct (fetchItemProducer_ok e (Investing.cookieOf r) (Investing.usePuppeteerOf r) it w)
      as (o & w' & Hrun & Ho & Hst).
    assert (Investing.link o = Investing.link it) as Hlink
      by (destruct Ho as [->|[html ->]]; done).
    rewrite Hrun. eexists _, _. split_and!; try done.
    intros k v. simpl. rewrite Hst. destruct (decide (Investing.link it = k)) as [<-|Hne].
    + rewrite lookup_insert_eq. by intros [= <-].
    + rewrite lookup_insert_ne by done. apply Hw.
Qed.

Lemma directOutcome_link (e : Investing.env) (cookie : string) (it : Investing.item) :
  Investing.link (directOutcome e cookie it) = Investing.link it.
Proof. unfold directOutcome. by repeat case_match. Qed.

(** With puppeteer off the producer returns the same item in every world. *)
Lemma fetchItemProducer_direct (e : Investing.env) (cookie : string) (it : Investing.item)
    (w : world Investing.item) :
  (Investing.fetchItemProducer e cookie false it w).1 = Ok (directOutcome e cookie it).
Proof.
  rewrite <- fetchItemStart_whole. unfold bind. rewrite fetchItemStart_ok.
  destruct (directRest_ok e cookie it
              (World (trace w ++ (if JS.nonempty cookie
                                  then [Got (Investing.link it) cookie] else []))
                 (store w))) as (lg & -> & _).
  done.
Qed.

Lemma concat_map_if {X Y} (b : bool) (g : X → Y) (xs : list X) :
  concat (map (λ x, if b then [g x] else []) xs) = if b then map g xs else [].
Proof. induction xs as [|x xs IH]; simpl; [by destruct b|]. rewrite IH. by destruct b. Qed.

(** The concurrent policy: the requests of the articles that are not in the
    cache go out in the order of the batch, one for a link; then the
    responses are handled as they arrive, which logs at most warnings. *)
Lemma runBatch_concurrent (e : Investing.env) (r : Investing.request)
    (items : list Investing.item) (w : world Investing.item) :
  Investing.usePuppeteerOf r = false →
  ∃ logs st',
    Investing.runBatch e r items w
    = (Ok (outcomes Investing.link (directOutcome e (Investing.cookieOf r)) (store w) ∅ items),
       World (trace w ++ articleRequests (Investing.cookieOf r) w items ++ logs) st')
    ∧ Forall isWarning logs.
Proof.
  intros Hp. unfold Investing.runBatch. rewrite Hp.
  destruct (promiseAll_outcomes Investing.link
              (Investing.fetchItemStart e (Investing.cookieOf r) false)
              (directRest e (Investing.cookieOf r)) (directOutcome e (Investing.cookieOf r))
              (λ l, if JS.nonempty (Investing.cookieOf r)
                    then [Got l (Investing.cookieOf r)] else [])
              isWarning (fetchItemStart_ok e (Investing.cookieOf r))
              (directRest_ok e (Investing.cookieOf r)) items (Investing.sched r) w)
    as (logs & st' & Hrun & Hlogs).
  exists logs, st'. split; [|done]. rewrite Hrun. unfold articleRequests.
  rewrite concat_map_if.
  by rewrite (asked_uncached Investing.link (directOutcome e (Investing.cookieOf r))
                (store w) ∅ [] items)
    by (intros k; rewrite lookup_empty, elem_of_nil; split; [done | by intros [? ?]]).
Qed.

(** C8: under both policies the batch runner returns, for a batch of any
    size over a cache whose entries are stored under their link, one result
    per item, in the order of the input, each with the link of its item.
    With puppeteer on, [fetchItem] is called for one item after the other,
    each call starting in the world the one before has left. With puppeteer
    off, the result at a position is the entry the cache had for the link of
    the item, else what the producer returns for the first item of the batch
    with that link, whatever the order in which the responses arrive; and
    the requests for the links that the cache does not have all go out, in
    the order of the batch and one for a link, before any response is
    handled. *)
Theorem batch_keeps_order (e : Investing.env) (r : Investing.request)
    (items : list Investing.item) (w : world Investing.item) :
  cacheKeyed w →
  ∃ out w',
    Investing.runBatch e r items w = (Ok out, w')
    ∧ length out = length items
    ∧ map Investing.link out = map Investing.link items
    ∧ (Investing.usePuppeteerOf r = true →
       oneAtATime (Investing.fetchItem e r) items w out w')
    ∧ (Investing.usePuppeteerOf r = false →
       Forall2 (λ it o,
                  match store w !! Investing.link it with
                  | Some v => o = v
                  | None =>
                      ∃ first,
                        firstWith (Investing.link it) items = Some first
                        ∧ ∀ w1 : world Investing.item,
                            (Investing.fetchItemProducer e (Investing.cookieOf r)
                               (Investing.usePuppeteerOf r) first w1).1 = Ok o
                  end) items out
       ∧ ∃ logs,
           emitted (Investing.runBatch e r items) w
           = articleRequests (Investing.cookieOf r) w items ++ logs
           ∧ Forall isWarning logs).
Proof.
  intros Hw. destruct (Investing.usePuppeteerOf r) eqn:Hp.
  - destruct (forPush_ok (Investing.fetchItem e r) cacheKeyed
                (λ it o, Investing.link o = Investing.link it)
                (fetchItem_ok e r) items [] w Hw) as (out & w' & Hrun & _ & HR).
    exists out, w'. unfold Investing.runBatch. rewrite Hp. split_and!; try done.
    + symmetry. by eapply Forall2_length.
    + clear Hrun. induction HR as [|it o items' out' Hl _ IH]; simpl; [done|].
      by rewrite Hl, IH.
    + intros _. apply forPush_oneAtATime in Hrun as (ys & Heq & Hys).
      simpl in Heq. by subst ys.
  - destruct (runBatch_concurrent e r items w Hp) as (logs & st' & Hrun & Hlogs).
    eexists _, _. split; [exact Hrun|].
    assert (∀ it, it ∈ items → store w !! Investing.link it = None →
              ∃ first, firstWith (Investing.link it) items = Some first
                       ∧ Investing.link first = Investing.link it) as Hfirst.
    { intros it Hit _. unfold firstWith.
      destruct (filter _ items) as [|first rest] eqn:Hf.
      - assert (it ∈ filter (λ x, Investing.link x = Investing.link it) items) as Hin
          by by apply list_elem_of_filter.
        rewrite Hf in Hin. by apply elem_of_nil in Hin.
      - exists first. split; [done|].
        assert (first ∈ filter (λ x, Investing.link x = Investing.link it) items) as Hin
          by (rewrite Hf; by left).
        by apply list_elem_of_filter in Hin as [? _]. }
    rewrite outcomes_first. split_and!.
    + by rewrite length_map.
    + rewrite map_map. apply map_ext_in. intros it Hit%list_elem_of_In.
      destruct (store w !! Investing.link it) as [v|] eqn:Hst; [by apply Hw|].
      rewrite lookup_empty.
      destruct (Hfirst it Hit Hst) as (first & Hhead & Hlink).
      unfold firstWith in Hhead. rewrite Hhead. simpl. by rewrite directOutcome_link.
    + done.
    + intros _. split.
      * apply Forall2_fmap_r, Forall_Forall2_diag, Forall_forall. intros it Hit.
        unfold compose. destruct (store w !! Investing.link it) as [v|] eqn:Hst; [done|].
        rewrite lookup_empty.
        destruct (Hfirst it Hit Hst) as (first & Hhead & Hlink).
        exists first. split; [done|]. intros w1.
        unfold firstWith in Hhead. rewrite Hhead. simpl.
        apply fetchItemProducer_direct.
      * exists logs. split; [|done]. unfold emitted. rewrite Hrun. simpl.
        by rewrite drop_app_length.
Qed.

Lemma batch_keeps_order_witness :
  ∃ out w',
    Investing.runBatch blockedEverywhere reversedSchedule twoItems (World [] ∅) = (Ok out, w')
    ∧ map Investing.link out
      = ["https://cn.investing.com/news/1"; "https://cn.investing.com/news/2"].
Proof.
  destruct (batch_keeps_order blockedEverywhere reversedSchedule twoItems (World [] ∅))
    as (out & w' & Hrun & _ & Hlinks & _).
  - intros k v Hk. simpl in Hk. by rewrite lookup_empty in Hk.
  - by exists out, w'.
Defined.

(** Both requests are out before a response is handled; the second response
    arrives first, and the results are in the order of the batch. *)
Example answers_out_of_order :
  (Investing.runBatch unreachable reversedSchedule twoItems (World [] ∅)).2.(trace)
  = [Got "https://cn.investing.com/news/1" "sid=1";
     Got "https://cn.investing.com/news/2" "sid=1";
     Log "warn" "investing/latest-news got fetch failed for https://cn.investing.com/news/2: got";
     Log "warn" "investing/latest-news got fetch failed for https://cn.investing.com/news/1: got"]
  ∧ map Investing.title (default [] (match (Investing.runBatch unreachable reversedSchedule
                                         twoItems (World [] ∅)).1 with
                                     | Ok out => Some out
                                     | Throw _ => None
                                     end))
    = [Some "first"; Some "second"].
Proof. vm_compute. done. Qed.

(** Two items with one link: one request, and both positions have the
    result of the first. *)
Example repeated_link_shares :
  (Investing.runBatch unreachable reversedSchedule sameLink (World [] ∅)).2.(trace)
  = [Got "https://cn.investing.com/news/1" "sid=1";
     Log "warn" "investing/latest-news got fetch failed for https://cn.investing.com/news/1: got"]
  ∧ map Investing.title (default [] (match (Investing.runBatch unreachable reversedSchedule
                                         sameLink (World [] ∅)).1 with
                                     | Ok out => Some out
                                     | Throw _ => None
                                     end))
    = [Some "first"; Some "first"].
Proof. vm_compute. done. Qed.

(** ** What a computation sends out *)

Section Emits.
Context {V : Type} (P : event → Prop).

Lemma emits_ret {A} (a : A) : emits P (ret a : M V A).
Proof. intros w. exists []. by rewrite app_nil_r. Qed.

Lemma emits_throw {A} (err : error) : emits P (throw err : M V A).
Proof. intros w. exists []. by rewrite app_nil_r. Qed.

Lemma emits_emit (ev : event) : P ev → emits P (emit ev : M V unit).
Proof. intros Hev w. exists [ev]. split; [done | by constructor]. Qed.

Lemma emits_bind {A B} (m : M V A) (k : A → M V B) :
  emits P m → (∀ a, emits P (k a)) → emits P (bind m k).
Proof.
  intros Hm Hk w. unfold bind. destruct (Hm w) as (evs & Ht & Hevs).
  destruct (m w) as [[a|err] w1]; simpl in *; [|by eauto].
  destruct (Hk a w1) as (evs' & Ht' & Hevs').
  exists (evs ++ evs'). split; [by rewrite Ht', Ht, app_assoc | by apply Forall_app].
Qed.

Lemma emits_tryCatch {A} (m : M V A) (h : error → M V A) :
  emits P m → (∀ err, emits P (h err)) → emits P (tryCatch m h).
Proof.
  intros Hm Hh w. unfold tryCatch. destruct (Hm w) as (evs & Ht & Hevs).
  destruct (m w) as [[a|err] w1]; simpl in *; [by eauto|].
  destruct (Hh err w1) as (evs' & Ht' & Hevs').
  exists (evs ++ evs'). split; [by rewrite Ht', Ht, app_assoc | by apply Forall_app].
Qed.

Lemma emits_tryFinally {A} (m : M V A) (f : M V unit) :
  emits P m → emits P f → emits P (tryFinally m f).
Proof.
  intros Hm Hf w. unfold tryFinally. destruct (Hm w) as (evs & Ht & Hevs).
  destruct (m w) as [r w1]; simpl in *.
  destruct (Hf w1) as (evs' & Ht' & Hevs').
  exists (evs ++ evs'). split; [|by apply Forall_app].
  destruct (f w1) as [[[]|err] w2]; simpl in *; by rewrite Ht', Ht, app_assoc.
Qed.

Lemma emits_scopedCatch {R A} (acquire : M V R) (body : R → M V A)
    (h : error → M V A) (release : R → M V unit) :
  emits P acquire → (∀ ctx, emits P (body ctx)) → (∀ err, emits P (h err)) →
  (∀ ctx, emits P (release ctx)) → emits P (scopedCatch acquire body h release).
Proof.
  intros Ha Hb Hh Hr w. unfold scopedCatch. destruct (Ha w) as (evs & Ht & Hevs).
  destruct (acquire w) as [[ctx|err] w1]; simpl in *.
  - destruct (emits_tryFinally _ _ (emits_tryCatch _ _ (Hb ctx) Hh) (Hr ctx) w1)
      as (evs' & Ht' & Hevs').
    exists (evs ++ evs'). split; [by rewrite Ht', Ht, app_assoc | by apply Forall_app].
  - destruct (Hh err w1) as (evs' & Ht' & Hevs').
    exists (evs ++ evs'). split; [by rewrite Ht', Ht, app_assoc | by apply Forall_app].
Qed.

Lemma emits_tryGet (key : string) (producer : M V V) :
  emits P producer → emits P (tryGet key producer).
Proof.
  intros Hp w. unfold tryGet. destruct (store w !! key).
  - exists []. by rewrite app_nil_r.
  - destruct (Hp w) as (evs & Ht & Hevs).
    destruct (producer w) as [[v|err] w1]; simpl in *; eauto.
Qed.

Lemma emits_forPush {A B} (f : A → M V B) (xs : list A) (out : list B) :
  (∀ x, x ∈ xs → emits P (f x)) → emits P (forPush f xs out).
Proof.
  revert out. induction xs as [|x xs IH]; intros out Hf; simpl.
  - apply emits_ret.
  - apply emits_bind; [apply Hf; by left|].
    intros y. apply IH. intros x' Hx'. apply Hf. by right.
Qed.

End Emits.

Lemma emits_mono {V A} (P Q : event → Prop) (m : M V A) :
  (∀ ev, P ev → Q ev) → emits P m → emits Q m.
Proof.
  intros HPQ Hm w. destruct (Hm w) as (evs & Ht & Hevs).
  exists evs. split; [done|]. by eapply Forall_impl.
Qed.

Lemma emits_emitted {V A} (P : event → Prop) (m : M V A) (w : world V) :
  emits P m → Forall P (emitted m w).
Proof.
  intros Hm. destruct (Hm w) as (evs & Ht & Hevs).
  unfold emitted. by rewrite Ht, drop_app_length.
Qed.

Ltac emits_step :=
  first [ apply emits_ret | apply emits_throw | apply emits_tryCatch
        | apply emits_scopedCatch | apply emits_tryGet | apply emits_bind
        | apply emits_emit; intros ? [= <-]; done
        | apply emits_emit; intros ? [=]
        | progress intros
        | match goal with
          | |- emits _ (match ?x with _ => _ end) => destruct x
          end ].

(** An article fetch talks to the link of its item only. *)
Lemma fetchItem_about (e : Investing.env) (r : Investing.request) (it : Investing.item) :
  emits (about (Investing.link it)) (Investing.fetchItem e r it).
Proof.
  unfold Investing.fetchItem. apply emits_tryGet. intros w.
  eexists. split; [apply fetchItemProducer_extends|].
  unfold articleEvents, about.
  repeat first [ apply Forall_app; split | apply Forall_cons; split | apply Forall_nil
               | case_match | by intros ? [= <-] | by intros ? [=] | exact I ].
Qed.

(** ** The limit *)

Lemma sliceTo_nonneg {A} (L : Z) (xs : list A) :
  (0 ≤ L)%Z → JS.sliceTo (Some L) xs = take (Z.to_nat L) xs.
Proof.
  intros HL. unfold JS.sliceTo. simpl.
  destruct (L <? 0)%Z eqn:Hlt; [lia|].
  destruct (decide (L ≤ Z.of_nat (length xs))%Z).
  - by rewrite Z.min_l.
  - rewrite Z.min_r, Nat2Z.id by lia. by rewrite !take_ge by lia.
Qed.

Lemma sliceTo_NaN {A} (xs : list A) : JS.sliceTo None xs = [].
Proof. unfold JS.sliceTo. simpl. by rewrite Z.min_l by lia. Qed.

Lemma emits_bind_ok {V A B} (P : event → Prop) (m : M V A) (k : A → M V B) :
  emits P m → (∀ a, (∃ w w', m w = (Ok a, w')) → emits P (k a)) → emits P (bind m k).
Proof.
  intros Hm Hk w. unfold bind. destruct (Hm w) as (evs & Ht & Hevs).
  destruct (m w) as [[a|err] w1] eqn:Hrun; simpl in *; [|by eauto].
  destruct (Hk a (ex_intro _ w (ex_intro _ w1 Hrun)) w1) as (evs' & Ht' & Hevs').
  exists (evs ++ evs'). split; [by rewrite Ht', Ht, app_assoc | by apply Forall_app].
Qed.

(** The callback of the map over the entries does not touch the world. *)
Lemma toItem_pure (e : Investing.env) (x : Investing.rssItem) :
  (∃ it, ∀ w, Investing.toItem e x w = (Ok it, w))
  ∨ (∃ err, ∀ w, Investing.toItem e x w = (Throw err, w)).
Proof.
  unfold Investing.toItem, bind, ret, throw.
  destruct (JS.startsWith "http" (default "" (Investing.rss_link x))); [by eauto|].
  destruct (Investing.resolveUrl e (default "" (Investing.rss_link x))); by eauto.
Qed.

Lemma mapItems_spec (e : Investing.env) (xs : list Investing.rssItem)
    (w : world Investing.item) :
  (Investing.mapItems e xs w).2 = w
  ∧ ∀ items, (Investing.mapItems e xs w).1 = Ok items →
             Forall2 (λ x it, ∀ w0, Investing.toItem e x w0 = (Ok it, w0)) xs items.
Proof.
  induction xs as [|x xs [IHw IH]]; simpl.
  - split; [done|]. intros items [= <-]. constructor.
  - unfold bind. destruct (toItem_pure e x) as [[it Hit]|[err Herr]].
    + rewrite Hit. destruct (Investing.mapItems e xs w) as [[its|err] w1]; simpl in *; subst.
      * split; [done|]. intros items [= <-]. constructor; [done | by apply IH].
      * done.
    + by rewrite Herr.
Qed.

Lemma forPush_length {V A B} (f : A → M V B) (xs : list A) (out ys : list B) (w w' : world V) :
  forPush f xs out w = (Ok ys, w') → length ys = length out + length xs.
Proof.
  revert out w. induction xs as [|x xs IH]; intros out w; simpl.
  - intros [= <- _]. lia.
  - unfold bind. destruct (f x w) as [[y|err] w1]; [|done].
    intros Hrun%IH. rewrite length_app in Hrun. simpl in *. lia.
Qed.

Lemma runBatch_length (e : Investing.env) (r : Investing.request)
    (items out : list Investing.item) (w w' : world Investing.item) :
  Investing.runBatch e r items w = (Ok out, w') → length out ≤ length items.
Proof.
  destruct (Investing.usePuppeteerOf r) eqn:Hp.
  - unfold Investing.runBatch. rewrite Hp. intros Hrun%forPush_length. simpl in Hrun. lia.
  - destruct (runBatch_concurrent e r items w Hp) as (logs & st' & -> & _).
    intros [= <- _]. by rewrite outcomes_length.
Qed.

(** C9, as stated, fails for a negative limit: with [limit=-1] and three
    entries the feed has two items. *)
Lemma negative_limit_keeps_items :
  Investing.limit (limitOf "-1") = Some (-1)%Z
  ∧ ∃ d w', Investing.mostPopularNews threeEntries (limitOf "-1") (World [] ∅) = (Ok d, w')
            ∧ length (Investing.data_item d) = 2
            ∧ ¬ (Z.of_nat (length (Investing.data_item d)) ≤ -1)%Z.
Proof.
  split; [reflexivity|]. eexists _, _. split; [vm_compute; reflexivity|]. simpl. split; [done|lia].
Qed.

Lemma mapItems_silent (e : Investing.env) (P : event → Prop) (xs : list Investing.rssItem) :
  emits P (Investing.mapItems e xs).
Proof.
  intros w. exists []. by rewrite (proj1 (mapItems_spec e xs w)), app_nil_r.
Qed.

(** latest-news: beside the feed itself, only links of the first [L]
    entries are fetched. *)
Lemma latestNews_emits (e : Investing.env) (r : Investing.request) (L : Z) :
  Investing.limit r = Some L → (0 ≤ L)%Z →
  emits (withinLimit e (Z.to_nat L)) (Investing.latestNews e r).
Proof.
  intros Hlim HL. unfold Investing.latestNews, Investing.gotM, log.
  apply emits_bind; [by apply emits_emit; intros ? [=]|]. intros _.
  apply emits_bind.
  { apply emits_bind; [apply emits_emit; intros ? [= <-]; by left|].
    intros _. destruct (Investing.got _ _ _); [apply emits_ret | apply emits_throw]. }
  intros feedResponse. destruct (negb _); [apply emits_throw|].
  destruct (Investing.parseString e (JS.trimStart feedResponse)) as [f|] eqn:Hf;
    [|apply emits_throw].
  rewrite Hlim, sliceTo_nonneg by done.
  apply emits_bind_ok; [apply mapItems_silent|].
  intros items (w & w' & Hmap).
  pose proof (proj2 (mapItems_spec e (take (Z.to_nat L) (default [] (Investing.feed_items f))) w)
                items) as Hitems.
  rewrite Hmap in Hitems. specialize (Hitems eq_refl).
  apply emits_bind; [|intros; apply emits_ret].
  assert (∀ it, it ∈ items → emits (withinLimit e (Z.to_nat L)) (Investing.fetchItem e r it))
    as Hfetch.
  { intros it Hit. eapply emits_mono; [|apply fetchItem_about].
    intros ev Hev u Hu. right. apply Hev in Hu as ->.
    apply list_elem_of_lookup in Hit as [i Hi].
    destruct (Forall2_lookup_r _ _ _ _ _ Hitems Hi) as (x & Hx & Hto).
    exists (JS.trimStart feedResponse), f, x, it. split_and!; try done.
    by eapply list_elem_of_lookup_2. }
  destruct (Investing.usePuppeteerOf r) eqn:Hp.
  - unfold Investing.runBatch. rewrite Hp. by apply emits_forPush.
  - intros w0. destruct (runBatch_concurrent e r items w0 Hp) as (logs & st' & -> & Hlogs).
    eexists. split; [done|]. apply Forall_app. split.
    + unfold articleRequests. destruct (JS.nonempty _); [|constructor].
      apply Forall_fmap, Forall_forall. intros l (Hl & _)%uncached_elem_of.
      apply list_elem_of_fmap in Hl as (it & -> & Hit).
      intros u [= <-]. right.
      apply list_elem_of_lookup in Hit as [i Hi].
      destruct (Forall2_lookup_r _ _ _ _ _ Hitems Hi) as (x & Hx & Hto).
      exists (JS.trimStart feedResponse), f, x, it. split_and!; try done.
      by eapply list_elem_of_lookup_2.
    + eapply Forall_impl; [exact Hlogs|]. by intros ev [msg ->] u [=].
Qed.

(** C9 (amended): for a limit [L ≥ 0] (20 when the request gives none) a
    successful run returns at most [L] items: most-popular-news returns the
    first [L] entries of the parsed list, and latest-news cuts the entries of
    the feed to the first [L] before anything is fetched for them, so that
    beside the feed itself only links of those entries are requested. *)
Theorem limit_truncates (e : Investing.env) (r : Investing.request)
    (w : world Investing.item) (L : Z) :
  Investing.limit r = Some L → (0 ≤ L)%Z →
  (∀ d w', Investing.mostPopularNews e r w = (Ok d, w') →
     length (Investing.data_item d) ≤ Z.to_nat L
     ∧ ∃ c listItems, Investing.parseList e c = Some listItems
                      ∧ Investing.data_item d = take (Z.to_nat L) listItems)
  ∧ (∀ d w', Investing.latestNews e r w = (Ok d, w') →
     length (Investing.data_item d) ≤ Z.to_nat L
     ∧ Forall (withinLimit e (Z.to_nat L)) (emitted (Investing.latestNews e r) w)).
Proof.
  intros Hlim HL. split; intros d w'.
  - unfold Investing.mostPopularNews, bind, log, emit. simpl.
    destruct (Investing.fetchListHtml _ _ _ _ _) as [[c|err] w1]; [|done].
    destruct (Investing.parseList e c) as [listItems|] eqn:Hc; [|done].
    destruct (_ && _); [done|].
    unfold ret. intros [= <- _]. simpl. rewrite Hlim, sliceTo_nonneg by done.
    split; [rewrite length_take; lia | eauto].
  - intros Hrun. split; [|by eapply emits_emitted, latestNews_emits].
    revert Hrun. unfold Investing.latestNews, Investing.gotM, bind, log, emit, ret, throw. simpl.
    destruct (Investing.got _ _ _) as [feedResponse|]; [|done].
    destruct (negb _); [done|].
    destruct (Investing.parseString e _) as [f|]; [|done].
    rewrite Hlim, sliceTo_nonneg by done.
    match goal with |- context [Investing.mapItems e ?xs ?w0] =>
      pose proof (proj2 (mapItems_spec e xs w0)) as Hitems;
      destruct (Investing.mapItems e xs w0) as [[items|err] w1]; [|done]
    end.
    destruct (Investing.runBatch e r items w1) as [[out|err] w2] eqn:Hbatch; [|done].
    intros [= <- _]. simpl.
    apply runBatch_length in Hbatch.
    specialize (Hitems items eq_refl). apply Forall2_length in Hitems.
    rewrite length_take in Hitems. lia.
Qed.

Lemma limit_truncates_witness :
  ∃ d w', Investing.mostPopularNews threeEntries (limitOf "2") (World [] ∅) = (Ok d, w')
          ∧ length (Investing.data_item d) ≤ 2.
Proof.
  eexists _, _. split; [vm_compute; reflexivity|].
  refine (proj1 (proj1 (limit_truncates threeEntries (limitOf "2") (World [] ∅) 2 _ _) _ _ _)).
  - reflexivity.
  - lia.
  - vm_compute. reflexivity.
Defined.

(** The limit of a request: 20 without a [limit] parameter, [parseInt] of it
    otherwise. *)
Example limit_examples :
  Investing.limit withService = Some 20%Z
  ∧ Investing.limit (limitOf "") = Some 20%Z
  ∧ Investing.limit (limitOf "5") = Some 5%Z
  ∧ Investing.limit (limitOf " 12px") = Some 12%Z
  ∧ Investing.limit (limitOf "-1") = Some (-1)%Z
  ∧ Investing.limit (limitOf "abc") = None
  ∧ JS.sliceTo (Some (-1)%Z) [1; 2; 3] = [1; 2]
  ∧ JS.sliceTo None [1; 2; 3] = []
  ∧ JS.sliceTo (Some 5%Z) [1; 2; 3] = [1; 2; 3].
Proof. vm_compute. done. Qed.

(** ** Single flight *)

Section SingleFlight.
Context {T : Type} (negativeTtl : nat).
Import DedupCache.

Lemma invocations_other (key k : string) (inv : list string) :
  k ≠ key →
  length (filter (λ k', k' = key) (inv ++ [k])) = length (filter (λ k', k' = key) inv).
Proof.
  intros Hne. rewrite filter_app, length_app. simpl.
  rewrite filter_cons_False by done. simpl. lia.
Qed.

Lemma received_other (key k : string) (r : outcome T) (ws : list nat)
    (del : list (nat * string * outcome T)) :
  k ≠ key →
  omap (λ d, match d with
             | (caller, k', r') => if decide (k' = key) then Some (caller, r') else None
             end) (del ++ map (λ w, (w, k, r)) ws)
  = omap (λ d, match d with
               | (caller, k', r') => if decide (k' = key) then Some (caller, r') else None
               end) del.
Proof.
  intros Hne. rewrite omap_app.
  induction ws as [|w ws IH]; simpl; [by rewrite app_nil_r|].
  by rewrite decide_False.
Qed.

Lemma received_one (key k : string) (r : outcome T) (caller : nat)
    (del : list (nat * string * outcome T)) :
  k ≠ key →
  omap (λ d, match d with
             | (caller, k', r') => if decide (k' = key) then Some (caller, r') else None
             end) (del ++ [(caller, k, r)])
  = omap (λ d, match d with
               | (caller, k', r') => if decide (k' = key) then Some (caller, r') else None
               end) del.
Proof. intros Hne. apply (received_other key k r [caller] del Hne). Qed.

(** While the producer of [key] is in flight, a step that does not resolve
    it leaves it in flight, starts no second producer for [key] and
    delivers nothing for [key]; a call for [key] joins the waiters. *)
Lemma pending_step (key : string) (ttl : nat) (ws : list nat) (c : cache T) (a : action T) :
  entries c !! key = Some (Pending ttl ws) →
  resolves key a = false →
  entries (step negativeTtl c a) !! key = Some (Pending ttl (ws ++ callers key [a]))
  ∧ invocations key (step negativeTtl c a) = invocations key c
  ∧ received key (step negativeTtl c a) = received key c.
Proof.
  intros Hk Hres. destruct a as [caller k t|k r|dt]; simpl in *.
  - destruct (decide (k = key)) as [->|Hne].
    + rewrite Hk. simpl. by rewrite lookup_insert_eq.
    + rewrite app_nil_r.
      destruct (entries c !! k) as [[t' ws'|v ex|err ex]|]; simpl;
        repeat case_decide; unfold invocations, received; simpl;
        rewrite ?lookup_insert_ne by done;
        rewrite ?invocations_other by done;
        rewrite ?received_one by done; done.
  - apply bool_decide_eq_false in Hres. rewrite app_nil_r.
    destruct (entries c !! k) as [[t' ws'|v ex|err ex]|]; simpl; try done.
    unfold invocations, received; simpl.
    rewrite lookup_insert_ne by done. by rewrite received_other.
  - by rewrite app_nil_r.
Qed.

Lemma callers_app (key : string) (acts acts' : list (action T)) :
  callers key (acts ++ acts') = callers key acts ++ callers key acts'.
Proof.
  induction acts as [|[caller k t|k r|dt] acts IH]; simpl; try done.
  case_decide; simpl; by rewrite IH.
Qed.

Lemma pending_steps (key : string) (ttl : nat) (acts : list (action T)) :
  ∀ (ws : list nat) (c : cache T),
    entries c !! key = Some (Pending ttl ws) →
    Forall (λ a, resolves key a = false) acts →
    entries (steps negativeTtl c acts) !! key = Some (Pending ttl (ws ++ callers key acts))
    ∧ invocations key (steps negativeTtl c acts) = invocations key c
    ∧ received key (steps negativeTtl c acts) = received key c.
Proof.
  induction acts as [|a acts IH]; intros ws c Hk Hacts.
  - simpl. by rewrite app_nil_r.
  - apply Forall_cons in Hacts as [Ha Hacts].
    destruct (pending_step key ttl ws c a Hk Ha) as (Hk' & Hinv & Hrec).
    destruct (IH _ _ Hk' Hacts) as (Hk'' & Hinv' & Hrec').
    change (steps negativeTtl c (a :: acts)) with (steps negativeTtl (step negativeTtl c a) acts).
    rewrite Hk'', Hinv', Hrec', Hinv, Hrec. split_and!; try done.
    by rewrite <- app_assoc, <- callers_app.
Qed.

Lemma first_call (key : string) (caller ttl : nat) (c : cache T) :
  fresh key c →
  entries (step negativeTtl c (Call caller key ttl)) !! key = Some (Pending ttl [caller])
  ∧ invocations key (step negativeTtl c (Call caller key ttl)) = S (invocations key c)
  ∧ received key (step negativeTtl c (Call caller key ttl)) = received key c.
Proof.
  unfold fresh. intros Hfresh. simpl.
  assert (entries (start c caller key ttl) !! key = Some (Pending ttl [caller])
          ∧ invocations key (start c caller key ttl) = S (invocations key c)
          ∧ received key (start c caller key ttl) = received key c) as Hstart.
  { unfold invocations, received, start; simpl. rewrite lookup_insert_eq.
    split_and!; try done.
    rewrite filter_app, length_app. simpl. rewrite filter_cons_True by done. simpl. lia. }
  destruct (entries c !! key) as [[t' ws'|v ex|err ex]|]; try done;
    by rewrite decide_False by lia.
Qed.

(** C3: when a call for [key] finds nothing in flight and nothing usable
    stored, and any number of further calls, for this key or others, arrive
    before the producer of [key] resolves, that producer is started exactly
    once, every caller of [key] stays suspended until it resolves, and all
    of them then receive its one outcome, in the order they asked. *)
Theorem single_flight (key : string) (caller ttl : nat) (acts : list (action T))
    (r : outcome T) (c : cache T) :
  fresh key c →
  Forall (λ a, resolves key a = false) acts →
  let inFlight := steps negativeTtl c (Call caller key ttl :: acts) in
  let resolved := step negativeTtl inFlight (Resolve key r) in
  invocations key inFlight = S (invocations key c)
  ∧ received key inFlight = received key c
  ∧ invocations key resolved = S (invocations key c)
  ∧ received key resolved
    = received key c ++ map (λ w, (w, r)) (caller :: callers key acts).
Proof.
  intros Hfresh Hacts inFlight resolved. subst resolved inFlight.
  destruct (first_call key caller ttl c Hfresh) as (Hk & Hinv & Hrec).
  destruct (pending_steps key ttl acts _ _ Hk Hacts) as (Hk' & Hinv' & Hrec').
  change (steps negativeTtl c (Call caller key ttl :: acts))
    with (steps negativeTtl (step negativeTtl c (Call caller key ttl)) acts).
  remember (steps negativeTtl (step negativeTtl c (Call caller key ttl)) acts) as c2.
  rewrite Hinv', Hrec', Hinv, Hrec. split_and!; try done.
  - unfold invocations in *. simpl. rewrite Hk'. simpl. congruence.
  - unfold received in *. simpl. rewrite Hk'. simpl.
    rewrite omap_app, Hrec', Hrec. f_equal.
    change (omap (λ d : nat * string * outcome T,
                    match d with
                    | (caller0, k, r0) =>
                        if decide (k = key) then Some (caller0, r0) else None
                    end)
              (map (λ w, (w, key, r)) (caller :: callers key acts))
            = map (λ w, (w, r)) (caller :: callers key acts)).
    generalize (caller :: callers key acts). intros ws.
    induction ws as [|w ws IH]; csimpl; [done|]. by rewrite decide_True, IH.
Qed.

End SingleFlight.

Lemma single_flight_witness :
  let acts := [DedupCache.Call 2 "https://a" 60; DedupCache.Call 3 "https://b" 60;
               DedupCache.Tick 5; DedupCache.Call 4 "https://a" 60] in
  let c := DedupCache.Cache (∅ : gmap string (DedupCache.entry nat)) 0 [] [] in
  let resolved :=
    DedupCache.step 0 (DedupCache.steps 0 c (DedupCache.Call 1 "https://a" 60 :: acts))
      (DedupCache.Resolve "https://a" (DedupCache.Value 7)) in
  DedupCache.invocations "https://a" resolved = 1
  ∧ DedupCache.received "https://a" resolved
    = [(1, DedupCache.Value 7); (2, DedupCache.Value 7); (4, DedupCache.Value 7)].
Proof.
  intros acts c resolved.
  destruct (single_flight 0 "https://a" 1 60 acts (DedupCache.Value 7) c) as (_ & _ & Hi & Hr).
  - unfold fresh. simpl. by rewrite lookup_empty.
  - repeat constructor.
  - split; [exact Hi | exact Hr].
Defined.

(** * Further properties *)

(** ** Splitting and trimming *)

Lemma app_cons (c : ascii) (a b : string) : String c a +:+ b = String c (a +:+ b).
Proof. reflexivity. Qed.

Lemma app_empty (b : string) : EmptyString +:+ b = b.
Proof. reflexivity. Qed.

Lemma split_nonempty (sep : ascii) (s : string) : ∃ h t, Text.split sep s = h :: t.
Proof.
  induction s as [|c s (h & t & IH)]; simpl; [by eauto|].
  case_decide; [by eauto|]. rewrite IH. by eauto.
Qed.

Lemma split_app_sep (sep : ascii) (a b : string) :
  Text.split sep (a +:+ String sep b) = Text.split sep a ++ Text.split sep b.
Proof.
  induction a as [|c a IH].
  - rewrite app_empty. simpl. by rewrite decide_True.
  - rewrite app_cons. simpl. case_decide; [by rewrite IH|].
    rewrite IH. by destruct (split_nonempty sep a) as (h & t & ->).
Qed.

Lemma has_split (sep c : ascii) (s p : string) :
  p ∈ Text.split sep s → Text.has c p = true → Text.has c s = true.
Proof.
  revert p. induction s as [|d s IH]; intros p; simpl.
  - by intros ->%list_elem_of_singleton.
  - case_decide as Hd.
    + intros [->|Hp]%elem_of_cons; [done|]. intros Hc.
      rewrite (IH p Hp Hc). by rewrite orb_true_r.
    + destruct (split_nonempty sep s) as (h & t & Hs). rewrite Hs in *.
      intros [->|Hp]%elem_of_cons; simpl.
      * intros [?|Hc]%orb_true_iff; [by rewrite H|].
        rewrite (IH h); [by rewrite orb_true_r | by left | done].
      * intros Hc. rewrite (IH p); [by rewrite orb_true_r | by right | done].
Qed.

Lemma split_no_sep (sep : ascii) (s p : string) :
  p ∈ Text.split sep s → Text.has sep p = false.
Proof.
  revert p. induction s as [|d s IH]; intros p; simpl.
  - by intros ->%list_elem_of_singleton.
  - case_decide as Hd.
    + intros [->|Hp]%elem_of_cons; [done | by apply IH].
    + destruct (split_nonempty sep s) as (h & t & Hs). rewrite Hs in *.
      intros [->|Hp]%elem_of_cons; simpl.
      * rewrite bool_decide_eq_false_2 by done. apply IH. by left.
      * apply IH. by right.
Qed.

Lemma split_whole (sep : ascii) (s : string) :
  Text.has sep s = false → Text.split sep s = [s].
Proof.
  induction s as [|d s IH]; simpl; [done|].
  intros [Hd Hs]%orb_false_iff. apply bool_decide_eq_false in Hd.
  rewrite decide_False by done. by rewrite IH.
Qed.

Lemma has_trimStart (c : ascii) (s : string) :
  Text.has c (JS.trimStart s) = true → Text.has c s = true.
Proof.
  induction s as [|d s IH]; simpl; [done|].
  destruct (JS.isWhite d); [|done]. intros Hc%IH. by rewrite Hc, orb_true_r.
Qed.

Lemma has_trimEnd (c : ascii) (s : string) :
  Text.has c (Text.trimEnd s) = true → Text.has c s = true.
Proof.
  induction s as [|d s IH]; simpl; [done|].
  destruct (Text.trimEnd s) as [|e t] eqn:Ht.
  - destruct (JS.isWhite d); simpl; [done|]. rewrite orb_false_r. by intros ->.
  - simpl in *. intros [->|Hc]%orb_true_iff; [done|]. by rewrite IH, orb_true_r.
Qed.

Lemma has_trim (c : ascii) (s : string) :
  Text.has c (Text.trim s) = true → Text.has c s = true.
Proof. intros H%has_trimEnd. by apply has_trimStart. Qed.

Lemma has_slice0 (c : ascii) (n : nat) (s : string) :
  Text.has c (JS.slice0 n s) = true → Text.has c s = true.
Proof.
  revert s. induction n as [|n IH]; intros [|d s]; simpl; try done.
  intros [->|Hc]%orb_true_iff; [done|]. by rewrite (IH s Hc), orb_true_r.
Qed.

Lemma has_sliceFrom (c : ascii) (n : nat) (s : string) :
  Text.has c (Text.sliceFrom n s) = true → Text.has c s = true.
Proof.
  revert s. induction n as [|n IH]; intros [|d s]; simpl; try done.
  intros Hc. by rewrite (IH s Hc), orb_true_r.
Qed.

Lemma indexOf_None (c : ascii) (s : string) :
  Text.indexOf c s = None ↔ Text.has c s = false.
Proof.
  induction s as [|d s IH]; simpl; [done|].
  case_decide as Hd.
  - rewrite bool_decide_eq_true_2 by done. done.
  - rewrite bool_decide_eq_false_2 by done. simpl. rewrite <- IH.
    by destruct (Text.indexOf c s).
Qed.

Lemma indexOf_before (c : ascii) (s : string) (i : nat) :
  Text.indexOf c s = Some i → Text.has c (JS.slice0 i s) = false.
Proof.
  revert i. induction s as [|d s IH]; intros i; simpl; [done|].
  case_decide as Hd; [by intros [= <-]|].
  destruct (Text.indexOf c s) as [j|]; [|done]. intros [= <-]. simpl.
  rewrite bool_decide_eq_false_2 by done. by apply IH.
Qed.

Lemma trimEnd_idem (s : string) : Text.trimEnd (Text.trimEnd s) = Text.trimEnd s.
Proof.
  induction s as [|d s IH]; simpl; [done|].
  destruct (Text.trimEnd s) as [|e t] eqn:Ht.
  - destruct (JS.isWhite d) eqn:Hd; simpl; [done|]. by rewrite Hd.
  - simpl in *. by rewrite IH.
Qed.

Lemma trimStart_fixed (s : string) :
  match s with String d _ => JS.isWhite d = false | EmptyString => True end →
  JS.trimStart s = s.
Proof. destruct s as [|d s]; simpl; [done|]. by intros ->. Qed.

Lemma trimStart_head (s : string) :
  match JS.trimStart s with String d _ => JS.isWhite d = false | EmptyString => True end.
Proof.
  induction s as [|d s IH]; simpl; [done|].
  by destruct (JS.isWhite d) eqn:Hd; simpl.
Qed.

Lemma trimEnd_head (s : string) :
  match s with String d _ => JS.isWhite d = false | EmptyString => True end →
  match Text.trimEnd s with String d _ => JS.isWhite d = false | EmptyString => True end.
Proof.
  destruct s as [|d s]; simpl; [done|]. intros Hd.
  destruct (Text.trimEnd s); simpl; by rewrite ?Hd.
Qed.

Lemma trim_idem (s : string) : trimmed (Text.trim s).
Proof.
  unfold trimmed, Text.trim.
  rewrite (trimStart_fixed (Text.trimEnd _)); [apply trimEnd_idem|].
  apply trimEnd_head, trimStart_head.
Qed.

(** ** The cookies replayed in the browser *)

Lemma toCookie_ok (part : string) (c : Cookies.cookieParam) :
  Text.has ";" part = false → Cookies.toCookie part = Some c → cookieOk c.
Proof.
  unfold Cookies.toCookie. intros Hsemi.
  destruct (Text.indexOf "=" part) as [[|i]|] eqn:Hi; try done.
  pose proof (indexOf_before _ _ _ Hi) as Hbefore.
  assert (Text.has ";" (JS.slice0 (S i) part) = false) as Hpre
    by (apply not_true_is_false; intros H%has_slice0; congruence).
  assert (Text.has ";" (Text.sliceFrom (S i + 1) part) = false) as Hpost
    by (apply not_true_is_false; intros H%has_sliceFrom; congruence).
  remember (JS.slice0 (S i) part) as pre. remember (Text.sliceFrom (S i + 1) part) as post.
  destruct (negb _ || _) eqn:Hchk; [done|]. intros [= <-].
  apply orb_false_iff in Hchk as [Hne%negb_false_iff Hkw%bool_decide_eq_false].
  split; simpl; try done.
  - apply trim_idem.
  - apply not_true_is_false. intros H%has_trim. congruence.
  - apply not_true_is_false. intros H%has_trim. congruence.
Qed.

(** X1: every cookie that [parseCookieHeader] hands to the browser has a
    non-empty, trimmed name without "=" or ";", a value without ";", a name
    that is no cookie attribute (path, domain, expires, ...) in any
    capitalisation, and the domain of the site. *)
Theorem parseCookieHeader_ok (cookieHeader : string) :
  Forall cookieOk (Cookies.parseCookieHeader cookieHeader).
Proof.
  unfold Cookies.parseCookieHeader. apply Forall_forall. intros c Hc.
  apply list_elem_of_omap in Hc as (part & Hpart & Hto).
  apply list_elem_of_filter in Hpart as [_ Hpart].
  apply list_elem_of_fmap in Hpart as (p & -> & Hp).
  apply (toCookie_ok (Text.trim p)); [|done].
  apply not_true_is_false. intros H%has_trim. by rewrite (split_no_sep _ _ _ Hp) in H.
Qed.

Lemma trims_of_spaced (b : string) :
  map Text.trim (Text.split ";" (String " " b)) = map Text.trim (Text.split ";" b).
Proof.
  simpl. destruct (split_nonempty ";" b) as (h & t & ->). reflexivity.
Qed.

Lemma parseCookieHeader_app (a b : string) :
  Cookies.parseCookieHeader (a +:+ "; " +:+ b)
  = Cookies.parseCookieHeader a ++ Cookies.parseCookieHeader b.
Proof.
  unfold Cookies.parseCookieHeader.
  change ("; " +:+ b) with (String ";" (String " " b)).
  by rewrite split_app_sep, map_app, trims_of_spaced, filter_app, omap_app.
Qed.

Lemma parseCookieHeader_join (parts : list string) :
  Cookies.parseCookieHeader (JS.join "; " parts)
  = concat (map Cookies.parseCookieHeader parts).
Proof.
  induction parts as [|p [|q parts] IH]; [done| |].
  - simpl. by rewrite app_nil_r.
  - change (JS.join "; " (p :: q :: parts)) with (p +:+ "; " +:+ JS.join "; " (q :: parts)).
    by rewrite parseCookieHeader_app, IH.
Qed.

(** X2: the cookies parsed from the credential the investing handlers merge
    are the cookies of the query value, then those of the cookie header,
    then those of the environment: parsing distributes over the "; " join. *)
Theorem merged_cookies (s : sources) :
  Cookies.parseCookieHeader (InvestingCredential.cookie s)
  = concat (map Cookies.parseCookieHeader (present s)).
Proof.
  unfold InvestingCredential.cookie. rewrite parseCookieHeader_join. f_equal. f_equal.
  destruct s as [[[|]|] [[|]|] [[|]|]]; reflexivity.
Qed.

Lemma omap_none {A B} (f : A → option B) (l : list A) :
  (∀ x, x ∈ l → f x = None) → omap f l = [].
Proof.
  induction l as [|x l IH]; intros Hf; csimpl; [done|].
  rewrite (Hf x) by by left. apply IH. intros y Hy. apply Hf. by right.
Qed.

(** X3: a header without "=" gives no cookie at all; in particular the
    empty header. *)
Theorem parseCookieHeader_no_pair (cookieHeader : string) :
  Text.has "=" cookieHeader = false → Cookies.parseCookieHeader cookieHeader = [].
Proof.
  intros Hno. unfold Cookies.parseCookieHeader.
  apply omap_none. intros part [_ Hpart]%list_elem_of_filter.
  apply list_elem_of_fmap in Hpart as (p & -> & Hp).
  unfold Cookies.toCookie.
  assert (Text.indexOf "=" (Text.trim p) = None) as ->; [|done].
  apply indexOf_None, not_true_is_false. intros H%has_trim.
  apply (has_split _ _ _ _ Hp) in H. congruence.
Qed.

Lemma parseCookieHeader_no_pair_witness : Cookies.parseCookieHeader "path; secure" = [].
Proof. apply (parseCookieHeader_no_pair "path; secure"). reflexivity. Defined.

Lemma has_app (c : ascii) (a b : string) :
  Text.has c (a +:+ b) = Text.has c a || Text.has c b.
Proof.
  induction a as [|d a IH]; [done|]. rewrite app_cons. simpl. by rewrite IH, orb_assoc.
Qed.

Lemma trimEnd_app_fixed (a y : string) :
  Text.trimEnd y = y → JS.nonempty y = true → Text.trimEnd (a +:+ y) = a +:+ y.
Proof.
  intros Hy Hne. induction a as [|d a IH]; [done|].
  rewrite app_cons. simpl. rewrite IH.
  destruct (a +:+ y) eqn:Hay; [|done].
  destruct a; [|done]. rewrite app_empty in Hay. by subst.
Qed.

Lemma indexOf_app (c : ascii) (a b : string) :
  Text.has c a = false → Text.indexOf c (a +:+ String c b) = Some (String.length a).
Proof.
  induction a as [|d a IH].
  - intros _. rewrite app_empty. simpl. by rewrite decide_True.
  - simpl. intros [Hd Ha]%orb_false_iff. apply bool_decide_eq_false in Hd.
    rewrite decide_False by done. by rewrite IH.
Qed.

Lemma slice0_app (a b : string) : JS.slice0 (String.length a) (a +:+ b) = a.
Proof.
  induction a as [|d a IH]; [by destruct b|]. rewrite app_cons. simpl. by rewrite IH.
Qed.

Lemma sliceFrom_app (a b : string) : Text.sliceFrom (String.length a) (a +:+ b) = b.
Proof.
  induction a as [|d a IH]; [by destruct b|]. rewrite app_cons. simpl. by rewrite IH.
Qed.

Lemma trimmed_head (s : string) :
  trimmed s → match s with String d _ => JS.isWhite d = false | EmptyString => True end.
Proof. intros <-. apply trimEnd_head, trimStart_head. Qed.

Lemma parse_one (c : Cookies.cookieParam) :
  cookieOk c → Text.trimEnd (Cookies.value c) = Cookies.value c →
  Cookies.parseCookieHeader (Cookies.name c +:+ "=" +:+ Cookies.value c) = [c].
Proof.
  destruct c as [n v d]. intros [Hne Htr Heq Hsemi Hval Hkw Hdom] Hv. simpl in *. subst d.
  unfold Cookies.parseCookieHeader.
  rewrite split_whole by by rewrite has_app, Hsemi.
  assert (Text.trim (n +:+ "=" +:+ v) = n +:+ "=" +:+ v) as Htrim.
  { unfold Text.trim. rewrite trimStart_fixed.
    - apply trimEnd_app_fixed; [|done]. change ("=" +:+ v) with (String "=" v).
      simpl. rewrite Hv. by destruct v.
    - pose proof (trimmed_head n Htr). destruct n; [done|]. by rewrite app_cons. }
  simpl. rewrite Htrim.
  rewrite filter_cons_True by (destruct n; [done | by rewrite app_cons]).
  rewrite filter_nil. csimpl.
  unfold Cookies.toCookie. change ("=" +:+ v) with (String "=" v).
  rewrite indexOf_app by done.
  destruct (String.length n) as [|i] eqn:Hlen; [by destruct n|].
  rewrite <- Hlen, slice0_app, Htr, Hne. simpl.
  rewrite bool_decide_eq_false_2 by done.
  replace (String.length n + 1) with (String.length (n +:+ "=")).
  - change (n +:+ String "=" v) with (n +:+ ("=" +:+ v)).
    assert (n +:+ ("=" +:+ v) = (n +:+ "=") +:+ v) as -> by (clear; induction n; [done | by rewrite !app_cons; f_equal]).
    by rewrite sliceFrom_app.
  - clear. induction n; simpl; [done | by f_equal].
Qed.

(** X4: parsing undoes rendering: a list of cookies as [parseCookieHeader]
    returns them, whose values do not end in white space, is what
    [parseCookieHeader] reads back from the header "n1=v1; n2=v2; ...". *)
Theorem parseCookieHeader_render (cs : list Cookies.cookieParam) :
  Forall cookieOk cs →
  Forall (λ c, Text.trimEnd (Cookies.value c) = Cookies.value c) cs →
  Cookies.parseCookieHeader (renderCookies cs) = cs.
Proof.
  intros Hok Hval. unfold renderCookies. rewrite parseCookieHeader_join.
  induction Hok as [|c cs Hc Hcs IH]; [done|].
  apply Forall_cons in Hval as [Hv Hvs].
  csimpl. by rewrite parse_one, IH.
Qed.

Lemma parseCookieHeader_render_witness :
  Cookies.parseCookieHeader "sid=1; udid=a=b" = twoCookies.
Proof.
  apply (parseCookieHeader_render twoCookies).
  - repeat constructor; try reflexivity; by apply (bool_decide_unpack _).
  - repeat constructor.
Defined.

(** ** The search for the posts in the render data *)

Section RenderDataFacts.
Import RenderData.

Lemma pop_spec (stack rest : list json) (top : json) :
  pop stack = Some (top, rest) → stack = rest ++ [top].
Proof.
  unfold pop. destruct (reverse stack) as [|t r] eqn:Hrev; [done|].
  intros [= <- <-]. apply (f_equal reverse) in Hrev.
  by rewrite reverse_involutive, reverse_cons in Hrev.
Qed.

Lemma pop_snoc (rest : list json) (top : json) : pop (rest ++ [top]) = Some (top, rest).
Proof. unfold pop. by rewrite reverse_snoc, reverse_involutive. Qed.

Lemma size_pos (j : json) : 0 < size j.
Proof. destruct j; simpl; lia. Qed.

Lemma size_values (j : json) : isObject j = true → size j = S (stackSize (values j)).
Proof.
  destruct j as [| | | |items|fields]; try done. intros _. simpl. unfold stackSize. f_equal.
  induction fields as [|[k v] fields IH]; simpl; [done | by rewrite IH].
Qed.

Lemma stackSize_snoc (stack : list json) (j : json) :
  stackSize (stack ++ [j]) = stackSize stack + size j.
Proof. unfold stackSize. rewrite map_app, list_sum_app. simpl. lia. Qed.

(** What the loop over the values leaves: either the posts of the first
    array whose first element has an [aweme_id], or the stack with the
    objects proper pushed in order. *)
Lemma scan_spec (vals stack : list json) :
  match scan vals stack with
  | inl found =>
      ∃ items, found = JObj [("aweme_list", JArr items)] ∧ JArr items ∈ vals
               ∧ hasAwemeId (head items) = true
  | inr stack' =>
      stack' = stack ++ filter (λ v, plainObject v = true) vals
      ∧ existsb (λ v, match v with JArr items => hasAwemeId (head items) | _ => false end) vals
        = false
  end.
Proof.
  revert stack. induction vals as [|v vals IH]; intros stack; simpl.
  - by rewrite app_nil_r.
  - destruct v as [| | | |items|fields]; simpl;
      try (specialize (IH stack); destruct (scan vals stack) as [found|stack'];
           [destruct IH as (items' & ? & ? & ?); exists items'; split_and!; try done; by right
           | by rewrite filter_cons_False by done]).
    + destruct (hasAwemeId (head items)) eqn:Hid.
      * exists items. split_and!; try done. by left.
      * specialize (IH stack). destruct (scan vals stack) as [found|stack'].
        -- destruct IH as (items' & ? & ? & ?). exists items'. split_and!; try done. by right.
        -- by rewrite filter_cons_False by done.
    + specialize (IH (stack ++ [JObj fields])).
      destruct (scan vals (stack ++ [JObj fields])) as [found|stack'].
      * destruct IH as (items' & ? & ? & ?). exists items'. split_and!; try done. by right.
      * rewrite filter_cons_True by done. destruct IH as [-> ?]. by rewrite <- app_assoc.
Qed.

Lemma filter_size (vals : list json) :
  stackSize (filter (λ v, plainObject v = true) vals) ≤ stackSize vals.
Proof.
  unfold stackSize. induction vals as [|v vals IH]; [done|].
  destruct v; rewrite ?filter_cons_True, ?filter_cons_False by done; simpl in *; lia.
Qed.

(** The loop ends: a fuel above the nodes on the stack is never used up. *)
Lemma search_total (fuel : nat) (stack : list json) :
  stackSize stack < fuel → ∃ r, search fuel stack = Some r.
Proof.
  revert stack. induction fuel as [|fuel IH]; intros stack Hfuel; [lia|]. simpl.
  destruct (pop stack) as [[current stack']|] eqn:Hpop; [|by eauto].
  apply pop_spec in Hpop as ->. rewrite stackSize_snoc in Hfuel.
  pose proof (size_pos current).
  destruct (isObject current) eqn:Hobj; simpl; [|apply IH; lia].
  destruct (isArray (get "aweme_list" current)); [by eauto|].
  destruct (isArray (get "awemeList" current)); [by eauto|].
  pose proof (scan_spec (values current) stack') as Hscan.
  destruct (scan (values current) stack') as [found|stack'']; [by eauto|].
  destruct Hscan as [-> _]. apply IH.
  unfold stackSize in *. rewrite map_app, list_sum_app.
  pose proof (filter_size (values current)). rewrite (size_values current Hobj) in Hfuel.
  unfold stackSize in *. lia.
Qed.

Lemma search_more_fuel (fuel fuel' : nat) (stack : list json) (r : option json) :
  search fuel stack = Some r → fuel ≤ fuel' → search fuel' stack = Some r.
Proof.
  revert fuel' stack. induction fuel as [|fuel IH]; intros fuel' stack; [done|].
  destruct fuel' as [|fuel']; [lia|]. simpl. intros Hrun Hle.
  destruct (pop stack) as [[current stack']|]; [|done].
  destruct (negb (isObject current)); [apply IH; [done|lia]|].
  destruct (isArray _); [done|]. destruct (isArray _); [done|].
  destruct (scan _ _); [done|]. apply IH; [done|lia].
Qed.

(** X5: the search ends on every value: no more rounds are needed than
    the value has nodes, and more fuel does not change the outcome. *)
Theorem extractPostDataFromRenderData_ends (renderData : json) (fuel : nat) :
  size renderData < fuel →
  search fuel [renderData] = Some (default None (search (S (size renderData)) [renderData])).
Proof.
  intros Hfuel.
  destruct (search_total (S (size renderData)) [renderData]) as [r Hr].
  { unfold stackSize. simpl. lia. }
  rewrite Hr. simpl. eapply search_more_fuel; [done|lia].
Qed.

Lemma extractPostDataFromRenderData_ends_witness :
  search 100 [nestedPosts]
  = Some (default None (search (S (size nestedPosts)) [nestedPosts])).
Proof. apply (extractPostDataFromRenderData_ends nestedPosts 100). simpl. lia. Defined.

Lemma lookup_in (key : string) (fields : list (string * json)) (v : json) :
  lookup key fields = Some v → v ∈ map snd fields.
Proof.
  induction fields as [|[k w] fields IH]; simpl; [done|].
  case_decide; [intros [= <-]; by left | intros Hl; right; by apply IH].
Qed.

Lemma lookup_setField (key : string) (v : json) (fields : list (string * json)) :
  lookup key (setField key v fields) = Some v.
Proof.
  induction fields as [|[k w] fields IH]; simpl; [by rewrite decide_True|].
  case_decide as Hk; simpl; [by rewrite decide_True | by rewrite decide_False].
Qed.

Lemma isArray_get (key : string) (j : json) :
  isArray (get key j) = true → ∃ items, get key j = Some (JArr items) ∧ JArr items ∈ values j.
Proof.
  destruct j as [| | | |items|fields]; try done. simpl.
  destruct (lookup key fields) as [[| | | |items|]|] eqn:Hl; try done.
  intros _. exists items. split; [done|]. by eapply lookup_in.
Qed.

Lemma search_sound (root : json) (fuel : nat) (stack : list json) (pd : json) :
  Forall (within root) stack → search fuel stack = Some (Some pd) →
  ∃ posts, get "aweme_list" pd = Some (JArr posts) ∧ within root (JArr posts).
Proof.
  revert stack. induction fuel as [|fuel IH]; intros stack Hstack; [done|]. simpl.
  destruct (pop stack) as [[current stack']|] eqn:Hpop; [|done].
  apply pop_spec in Hpop as ->. apply Forall_app in Hstack as [Hstack' Hcur].
  rewrite Forall_singleton in Hcur.
  destruct (negb (isObject current)); [by apply IH|].
  destruct (isArray (get "aweme_list" current)) eqn:H1.
  { intros [= <-]. apply isArray_get in H1 as (items & Hget & Hin).
    exists items. split; [done|]. by apply (within_value root current). }
  destruct (isArray (get "awemeList" current)) eqn:H2.
  { apply isArray_get in H2 as (items & Hget & Hin). rewrite Hget. intros [= <-].
    exists items. split; [|by apply (within_value root current)].
    destruct current; simpl; try done. apply lookup_setField. }
  pose proof (scan_spec (values current) stack') as Hscan.
  destruct (scan (values current) stack') as [found|stack''].
  - destruct Hscan as (items & -> & Hin & _). intros [= <-].
    exists items. split; [done|]. by apply (within_value root current).
  - destruct Hscan as [-> _]. apply IH. apply Forall_app. split; [done|].
    apply Forall_forall. intros v [_ Hv]%list_elem_of_filter.
    by apply (within_value root current).
Qed.

(** X6: what the search returns has an array under [aweme_list], and that
    array is a value of the render data itself. *)
Theorem extractPostDataFromRenderData_sound (renderData pd : json) :
  extractPostDataFromRenderData renderData = Some pd →
  ∃ posts, get "aweme_list" pd = Some (JArr posts) ∧ within renderData (JArr posts).
Proof.
  unfold extractPostDataFromRenderData. destruct (negb _); [done|].
  destruct (search _ _) as [r|] eqn:Hrun; [|done]. simpl. intros ->.
  eapply search_sound; [|done]. apply Forall_singleton. constructor.
Qed.

Lemma extractPostDataFromRenderData_sound_witness :
  ∃ posts,
    get "aweme_list" (JObj [("aweme_list", JArr [JObj [("aweme_id", JStr "7")]])])
    = Some (JArr posts)
    ∧ within nestedPosts (JArr posts).
Proof.
  apply (extractPostDataFromRenderData_sound nestedPosts
           (JObj [("aweme_list", JArr [JObj [("aweme_id", JStr "7")]])])).
  reflexivity.
Defined.

Lemma hit_plain (x : json) : isObject x = false → hit x = false.
Proof. by destruct x. Qed.

Lemma reached_plain (s x : json) : isObject s = false → reached s x → x = s.
Proof.
  intros Hs [|fields y Hin _]; [done|].
  destruct s; try done; by apply elem_of_nil in Hin.
Qed.

Lemma search_complete (fuel : nat) (stack : list json) :
  search fuel stack = Some None → ∀ s x, s ∈ stack → reached s x → hit x = false.
Proof.
  revert stack. induction fuel as [|fuel IH]; intros stack; [done|]. simpl.
  destruct (pop stack) as [[current stack']|] eqn:Hpop.
  2: { unfold pop in Hpop. destruct (reverse stack) eqn:Hrev; [|done].
       apply (f_equal reverse) in Hrev. rewrite reverse_involutive in Hrev. subst.
       intros _ s x Hs. by apply elem_of_nil in Hs. }
  apply pop_spec in Hpop as ->.
  destruct (isObject current) eqn:Hobj; simpl.
  2: { intros Hrun s x [Hs|Hs%list_elem_of_singleton]%elem_of_app Hx; [by eapply IH|].
       subst s. apply (reached_plain _ _ Hobj) in Hx as ->. by apply hit_plain. }
  destruct (isArray (get "aweme_list" current)) eqn:H1; [done|].
  destruct (isArray (get "awemeList" current)) eqn:H2.
  { apply isArray_get in H2 as (items & -> & _). done. }
  pose proof (scan_spec (values current) stack') as Hscan.
  destruct (scan (values current) stack') as [found|stack'']; [done|].
  destruct Hscan as [-> Hnone]. intros Hrun s x Hs Hx.
  apply elem_of_app in Hs as [Hs|Hs%list_elem_of_singleton].
  - eapply IH; [done| |done]. apply elem_of_app. by left.
  - subst s. destruct Hx as [|fields y Hin Hy].
    + unfold hit. by rewrite H1, H2, Hnone.
    + eapply IH; [done| |done]. apply elem_of_app. right.
      by apply list_elem_of_filter.
Qed.

Lemma search_found (fuel : nat) (stack : list json) (pd : json) :
  search fuel stack = Some (Some pd) → ∃ s x, s ∈ stack ∧ reached s x ∧ hit x = true.
Proof.
  revert stack. induction fuel as [|fuel IH]; intros stack; [done|]. simpl.
  destruct (pop stack) as [[current stack']|] eqn:Hpop; [|done].
  apply pop_spec in Hpop as ->.
  assert (current ∈ stack' ++ [current]) as Hcur by (apply elem_of_app; right; by left).
  destruct (negb (isObject current)).
  { intros (s & x & Hs & Hx & Hhit)%IH. exists s, x. split_and!; try done.
    apply elem_of_app. by left. }
  destruct (isArray (get "aweme_list" current)) eqn:H1.
  { intros _. exists current, current. split_and!; [done|constructor|]. unfold hit. by rewrite H1. }
  destruct (isArray (get "awemeList" current)) eqn:H2.
  { intros _. exists current, current. split_and!; [done|constructor|].
    unfold hit. by rewrite H2, orb_true_r. }
  pose proof (scan_spec (values current) stack') as Hscan.
  destruct (scan (values current) stack') as [found|stack''].
  - destruct Hscan as (items & _ & Hin & Hid). intros _.
    exists current, current. split_and!; [done|constructor|].
    unfold hit. apply orb_true_iff. right. apply existsb_exists.
    exists (JArr items). split; [by apply list_elem_of_In|done].
  - destruct Hscan as [-> _]. intros (s & x & Hs & Hx & Hhit)%IH.
    apply elem_of_app in Hs as [Hs|[Hp Hs]%list_elem_of_filter].
    + exists s, x. split_and!; try done. apply elem_of_app. by left.
    + exists current, x. split_and!; try done.
      destruct s as [| | | | |fields]; try done. by eapply reached_field.
Qed.

(** X7: the search finds posts exactly when one of its three tests
    succeeds on the render data or on an object reached from it through
    object-valued properties; objects inside nested arrays are not looked
    at. *)
Theorem extractPostDataFromRenderData_complete (renderData : json) :
  isObject renderData = true →
  (extractPostDataFromRenderData renderData = None
   ↔ ∀ x, reached renderData x → hit x = false).
Proof.
  intros Hobj. unfold extractPostDataFromRenderData. rewrite Hobj. cbn [negb].
  destruct (search_total (S (size renderData)) [renderData]) as [r Hr].
  { unfold stackSize. simpl. lia. }
  rewrite Hr. simpl. split.
  - intros ->. intros x Hx. eapply search_complete; [done| |done]. by left.
  - intros Hnone. destruct r as [pd|]; [|done].
    apply search_found in Hr as (s & x & ->%list_elem_of_singleton & Hx & Hhit).
    by rewrite (Hnone x Hx) in Hhit.
Qed.

Lemma extractPostDataFromRenderData_complete_witness :
  extractPostDataFromRenderData hiddenPosts = None
  ↔ ∀ x, reached hiddenPosts x → hit x = false.
Proof. apply (extractPostDataFromRenderData_complete hiddenPosts). reflexivity. Defined.

(** The posts of [hiddenPosts] are not found. *)
Example hidden_posts_not_found : extractPostDataFromRenderData hiddenPosts = None.
Proof. reflexivity. Qed.
End RenderDataFacts.
